(** * A content-based movie recommender: TF-IDF vectors, cosine similarity,
      top-n ranking.

    Shallow embedding of the notebook [recommender.ipynb]:
    [form_corpus], [calculate_cos_similarities] and [find_recommendations],
    together with the library operations they call (scikit-learn's
    [TfidfVectorizer] and [cosine_similarity], NumPy's [argsort] and slicing,
    pandas' [iloc] and [reset_index]).

    Conventions of the model.
    - The model covers ASCII text only: a text is a string whose characters
      all have a code below 128.  On such text the analyzer below is the
      library's; text with other characters is outside the model (the
      library treats Unicode letters as word characters, this model does
      not).  Tokens, counts and indices are computed by executable
      functions.
    - Weights and similarity scores are real numbers: binary64 arithmetic is
      idealised by [R], so no rounding takes place.
    - NumPy's [argsort] is a parameter: the library fixes that its result
      sorts the array in ascending order, and nothing about the order of
      equal values.  Every general statement holds for every such sort.
    - A Python exception is a [Raise] result. *)

From Stdlib Require Import Ascii String.
From Stdlib Require Import List Arith ZArith Bool Lia.
From Stdlib Require Import Permutation Sorted.
From Stdlib Require Import Reals Lra.
Import ListNotations.

Set Implicit Arguments.

(** ** Exceptions *)

Inductive exn : Type :=
| EmptyVocabulary   (* ValueError: empty vocabulary; perhaps the documents
                       only contain stop words *)
| NoSamples         (* ValueError: Found array with 0 sample(s) ... while a
                       minimum of 1 is required *)
| IndexError.       (* IndexError: index out of bounds *)

Inductive result (A : Type) : Type :=
| Ok (a : A)
| Raise (e : exn).

Arguments Ok {A} a.
Arguments Raise {A} e.

Definition bind {A B : Type} (m : result A) (k : A -> result B) : result B :=
  match m with
  | Ok a => k a
  | Raise e => Raise e
  end.

Notation "x <- m ;; k" := (bind m (fun x => k))
  (at level 61, m at next level, right associativity).

(** ** Python sequence operations *)

Module Py.

(** [a[start:]]: a negative start counts from the end, and the start is
    clamped to the bounds of the sequence. *)
Definition slice_from {A : Type} (start : Z) (a : list A) : list A :=
  let len := Z.of_nat (length a) in
  let s := if (start <? 0)%Z then Z.max (start + len) 0 else Z.min start len in
  skipn (Z.to_nat s) a.

(** [a[:stop]], with the same treatment of [stop]. *)
Definition slice_to {A : Type} (stop : Z) (a : list A) : list A :=
  let len := Z.of_nat (length a) in
  let s := if (stop <? 0)%Z then Z.max (stop + len) 0 else Z.min stop len in
  firstn (Z.to_nat s) a.

(** [a[::-1]] *)
Definition reversed {A : Type} (a : list A) : list A := rev a.

(** [a[-1]] raises on an empty sequence. *)
Definition last_item {A : Type} (a : list A) : result A :=
  match rev a with
  | [] => Raise IndexError
  | x :: _ => Ok x
  end.

End Py.

(** ** Text analysis: the default analyzer of [TfidfVectorizer]

    [lowercase=True] and [token_pattern = (?u)\b\w\w+\b]: the text is
    lower-cased and its tokens are the maximal runs of word characters that
    have at least two characters.  The word characters and the lower-casing
    are those of ASCII, the text that the model covers. *)

Definition in_range (lo hi n : nat) : bool := (lo <=? n) && (n <=? hi).

Definition is_word_char (c : ascii) : bool :=
  let n := nat_of_ascii c in
  in_range 48 57 n || in_range 65 90 n || (n =? 95) || in_range 97 122 n.

Definition lower_char (c : ascii) : ascii :=
  let n := nat_of_ascii c in
  if in_range 65 90 n then ascii_of_nat (n + 32) else c.

Fixpoint lowercase (s : string) : string :=
  match s with
  | EmptyString => EmptyString
  | String c s' => String (lower_char c) (lowercase s')
  end.

(** A finished run of word characters is a token when it has two characters
    or more. *)
Definition emit (cur : string) (rest : list string) : list string :=
  if 2 <=? String.length cur then cur :: rest else rest.

Fixpoint findall (cur : string) (s : string) : list string :=
  match s with
  | EmptyString => emit cur []
  | String c s' =>
      if is_word_char c
      then findall (cur ++ String c EmptyString)%string s'
      else emit cur (findall EmptyString s')
  end.

Definition analyze (doc : string) : list string :=
  findall EmptyString (lowercase doc).

(** ** The vocabulary: the distinct terms of all entries, sorted *)

Fixpoint insert_term (t : string) (l : list string) : list string :=
  match l with
  | [] => [t]
  | u :: l' => if String.leb t u then t :: u :: l' else u :: insert_term t l'
  end.

Definition sort_terms (l : list string) : list string :=
  fold_right insert_term [] l.

Definition vocabulary (corpus : list string) : list string :=
  sort_terms (nodup string_dec (concat (map analyze corpus))).

(** ** Term counts *)

Definition term_count (doc : string) (t : string) : nat :=
  count_occ string_dec (analyze doc) t.

(** One row per entry, one column per vocabulary term. *)
Definition count_matrix (corpus : list string) : list (list nat) :=
  map (fun d => map (term_count d) (vocabulary corpus)) corpus.

(** [_document_frequency]: for column [j], the number of rows whose entry
    in that column is not zero. *)
Definition document_frequency (X : list (list nat)) (j : nat) : nat :=
  length (filter (fun row => negb (nth j row 0 =? 0)) X).

Open Scope R_scope.

(** ** TF-IDF weighting ([smooth_idf=True], [sublinear_tf=False], [norm=l2]) *)

(** [idf = log(n_samples / df) + 1] after adding one to both counts. *)
Definition idf (n_samples df : nat) : R :=
  ln (INR (n_samples + 1) / INR (df + 1)) + 1.

Definition idf_vector (corpus : list string) : list R :=
  map (fun j => idf (length corpus) (document_frequency (count_matrix corpus) j))
      (seq 0 (length (vocabulary corpus))).

(** Raw weights of one row: count times idf, column by column. *)
Fixpoint scale_row (counts : list nat) (idfs : list R) : list R :=
  match counts, idfs with
  | c :: counts', w :: idfs' => INR c * w :: scale_row counts' idfs'
  | _, _ => []
  end.

Definition tfidf_raw (corpus : list string) : list (list R) :=
  map (fun counts => scale_row counts (idf_vector corpus)) (count_matrix corpus).

Definition sum_squares (v : list R) : R :=
  fold_right (fun x acc => x * x + acc) 0 v.

Definition l2_norm (v : list R) : R := sqrt (sum_squares v).

(** [normalize(..., norm=l2)]: a row of norm zero is left as it is. *)
Definition normalize_row (v : list R) : list R :=
  if Req_dec_T (l2_norm v) 0 then v else map (fun x => x / l2_norm v) v.

(** [TfidfVectorizer().fit_transform]: an empty vocabulary is an error. *)
Definition fit_transform (corpus : list string) : result (list (list R)) :=
  match vocabulary corpus with
  | [] => Raise EmptyVocabulary
  | _ :: _ => Ok (map normalize_row (tfidf_raw corpus))
  end.

(** ** Cosine similarity *)

Fixpoint dot (u v : list R) : R :=
  match u, v with
  | x :: u', y :: v' => x * y + dot u' v'
  | _, _ => 0
  end.

(** [check_pairwise_arrays] requires at least one sample in each argument;
    both arguments are normalised again and multiplied. *)
Definition cosine_similarity (X Y : list (list R)) : result (list (list R)) :=
  match X, Y with
  | [], _ => Raise NoSamples
  | _, [] => Raise NoSamples
  | _, _ =>
      Ok (map (fun x => map (fun y => dot (normalize_row x) (normalize_row y)) Y) X)
  end.

Definition flatten {A : Type} (m : list (list A)) : list A := concat m.

Close Scope R_scope.

(** ** NumPy's [argsort]

    The library documents that [a.argsort()] returns the indices that sort
    [a] in ascending order; the default kind is not stable, and the order
    of the indices of equal values differs from one build of the library
    to another.  In the notebook the sort is therefore a parameter,
    [argsort], of which [admissible] is all that is assumed.

    One admissible sort is defined here, to run the notebook on examples:
    the insertion sort that the library's generic build uses on an array of
    at most sixteen elements, in which each index in turn moves left past
    the indices whose value is strictly greater.  The prefix sorted so far
    is kept with its last element first, the direction in which the loop
    scans it. *)

Section Argsort.

Variable A : Type.
Variable ltb : A -> A -> bool.
Variable default : A.

Definition key (a : list A) (i : nat) : A := nth i a default.

Fixpoint shift_in (a : list A) (vi : nat) (sorted_rev : list nat) : list nat :=
  match sorted_rev with
  | [] => [vi]
  | k :: rest =>
      if ltb (key a vi) (key a k)
      then k :: shift_in a vi rest
      else vi :: k :: rest
  end.

(** The sorted index list, greatest value first. *)
Definition insertion_rev (a : list A) : list nat :=
  fold_left (fun acc vi => shift_in a vi acc) (seq 0 (length a)) [].

Definition argsort_by (a : list A) : list nat := rev (insertion_rev a).

(** [k] may stand before [j] in the list that has the greatest value
    first: the value of [k] is not smaller, and when it is not greater
    either, [k] is the later index. *)
Definition before (a : list A) (k j : nat) : Prop :=
  ltb (key a k) (key a j) = false /\
  (ltb (key a j) (key a k) = true \/ j < k).

End Argsort.

Definition Rltb (x y : R) : bool := if Rlt_dec x y then true else false.

(** The insertion sort on real values. *)
Definition insertion_argsort (a : list R) : list nat := argsort_by Rltb 0%R a.

(** The score of the document at position [i]. *)
Definition score (cos_sims : list R) (i : nat) : R := nth i cos_sims 0%R.

(** [idxs] sorts [a]: it lists every index of [a] once, and the values read
    in that order ascend. *)
Definition ascending_permutation (a : list R) (idxs : list nat) : Prop :=
  Permutation idxs (seq 0 (length a)) /\
  StronglySorted (fun i j => (score a i <= score a j)%R) idxs.

(** What is assumed of [argsort]. *)
Definition admissible (argsort : list R -> list nat) : Prop :=
  forall a, ascending_permutation a (argsort a).

(** ** The notebook *)

Record movie : Type := { Title : string; Plot : string }.

(** The data frame read from the file: its rows, labelled 0, 1, ... *)
Definition DataFrame : Type := list movie.

(** [form_corpus]: the plots, then the query. *)
Definition form_corpus (movies : DataFrame) (query : string) : list string :=
  map Plot movies ++ [query].

(** [calculate_cos_similarities] *)
Definition calculate_cos_similarities (corpus : list string) : result (list R) :=
  tfidf_matrix <- fit_transform corpus ;;
  q <- Py.last_item tfidf_matrix ;;
  K <- cosine_similarity (Py.slice_to (-1) tfidf_matrix) [q] ;;
  Ok (flatten K).

(** [cos_sims.argsort()[-n:][::-1]] *)
Definition top_idxs (argsort : list R -> list nat) (cos_sims : list R) (n : Z)
  : list nat :=
  Py.reversed (Py.slice_from (- n) (argsort cos_sims)).

(** [movies.iloc[idxs]]: the rows at the given positions, each with the
    label it had. *)
Fixpoint iloc (movies : DataFrame) (idxs : list nat) : result (list (nat * movie)) :=
  match idxs with
  | [] => Ok []
  | i :: idxs' =>
      match nth_error movies i with
      | None => Raise IndexError
      | Some m => rows <- iloc movies idxs' ;; Ok ((i, m) :: rows)
      end
  end.

(** [reset_index(drop=True)]: the labels are dropped. *)
Definition reset_index (rows : list (nat * movie)) : list movie := map snd rows.

(** [find_recommendations], with the sort and the data frame it loads as
    arguments. *)
Definition find_recommendations (argsort : list R -> list nat)
           (movies : DataFrame) (query : string) (n : Z)
  : result (list movie) :=
  let corpus := form_corpus movies query in
  cos_sims <- calculate_cos_similarities corpus ;;
  let idxs := top_idxs argsort cos_sims n in
  top_movies <- iloc movies idxs ;;
  Ok (reset_index top_movies).

(** ** Derived notions used by the statements *)

(** How many elements [a[-n:]] keeps of a sequence of [len] elements. *)
Definition kept (len : nat) (n : Z) : nat :=
  let l := Z.of_nat len in
  len - Z.to_nat (if (- n <? 0)%Z then Z.max (- n + l) 0 else Z.min (- n) l).

Open Scope R_scope.

Definition all_zero (v : list R) : Prop := Forall (fun x => x = 0) v.

Close Scope R_scope.

(** [ranked argsort cos_sims]: every index, best score first. *)
Definition ranked (argsort : list R -> list nat) (cos_sims : list R) : list nat :=
  rev (argsort cos_sims).

(** The weight vector of the entry [d] of a corpus. *)
Definition weights (corpus : list string) (d : string) : list R :=
  normalize_row
    (scale_row (map (term_count d) (vocabulary corpus)) (idf_vector corpus)).

Definition similarity (corpus : list string) (d q : string) : R :=
  dot (normalize_row (weights corpus d)) (normalize_row (weights corpus q)).

Definition similarities (movies : DataFrame) (query : string) : list R :=
  map (fun m => similarity (form_corpus movies query) (Plot m) query) movies.

(** Whether the entry [d] contains the term [t] at least once. *)
Definition contains_term (t : string) (d : string) : bool :=
  if in_dec string_dec t (analyze d) then true else false.

(** [df corpus t]: the number of entries of the corpus that contain [t]. *)
Definition df (corpus : list string) (t : string) : nat :=
  length (filter (contains_term t) corpus).

(** * The sample data of the scenarios *)

Definition movie_A : movie := {| Title := "A"; Plot := "cats and dogs play" |}.
Definition movie_B : movie := {| Title := "B"; Plot := "dogs bark loudly" |}.
Definition movie_C : movie :=
  {| Title := "C"; Plot := "completely unrelated text about finance" |}.

Definition sample_movies : DataFrame := [movie_A; movie_B; movie_C].

(** The query that is the empty string. *)
Definition empty_query : string := EmptyString.

(** ** Ties *)

(** Lower index first, for one input: of two documents with the same score,
    the one with the lower index is the earlier one in the result. *)
Definition lower_index_first (argsort : list R -> list nat)
           (movies : DataFrame) (query : string) (n : Z) : Prop :=
  forall cos_sims i j p q,
    calculate_cos_similarities (form_corpus movies query) = Ok cos_sims ->
    score cos_sims i = score cos_sims j ->
    i < j ->
    nth_error (top_idxs argsort cos_sims n) p = Some i ->
    nth_error (top_idxs argsort cos_sims n) q = Some j ->
    p < q.

(** ** Character tests used by the statements *)

Fixpoint all_chars (p : ascii -> bool) (s : string) : bool :=
  match s with
  | EmptyString => true
  | String c s' => p c && all_chars p s'
  end.

Definition is_upper (c : ascii) : bool := in_range 65 90 (nat_of_ascii c).

(** The characters of the text that the model covers. *)
Definition is_ascii (c : ascii) : bool := nat_of_ascii c <? 128.

(** ** [display_movies]

    The function builds one HTML text and hands it to the notebook's
    [display]; the model is that text. *)

Definition nl : string := String (ascii_of_nat 10) EmptyString.

Definition html_style : string :=
  String.concat nl
    [ "<style>";
      "    .movie-container {";
      "        font-family: Arial, sans-serif;";
      "        margin-bottom: 20px;";
      "        padding: 10px;";
      "        border: 1px solid #ddd;";
      "        border-radius: 5px;";
      "        background-color: #f9f9f9;";
      "    }";
      "    .movie-title {";
      "        font-size: 18px;";
      "        font-weight: bold;";
      "        color: #333;";
      "    }";
      "    .movie-plot {";
      "        font-size: 14px;";
      "        color: #666;";
      "        margin-top: 5px;";
      "    }";
      "    </style>" ]%string.

Definition html_heading : string :=
  "<h1 style='color:#dae2f0'>Top Movie Recommendations</h1>".

(** The text that the loop adds for one row: the title and the plot are
    inserted as they are. *)
Definition movie_html (row : movie) : string :=
  (nl ++ "        <div class='movie-container'>" ++
   nl ++ "            <div class='movie-title'>" ++ Title row ++ "</div>" ++
   nl ++ "            <div class='movie-plot'>" ++ Plot row ++ "</div>" ++
   nl ++ "        </div>" ++
   nl ++ "        ")%string.

Definition display_movies (movies : list movie) : string :=
  fold_left (fun html_content row => (html_content ++ movie_html row)%string)
            movies
            (html_style ++ html_heading)%string.

(** * Facts about the ranking stage *)

(** ** Python slices *)

Lemma rev_skipn_rev (A : Type) (s : nat) (l : list A) :
  rev (skipn s (rev l)) = firstn (length l - s) l.
Proof.
  rewrite skipn_rev, rev_involutive. reflexivity.
Qed.

Lemma reversed_slice_from (A : Type) (n : Z) (l : list A) :
  Py.reversed (Py.slice_from (- n) (rev l)) = firstn (kept (length l) n) l.
Proof.
  unfold Py.reversed, Py.slice_from, kept.
  rewrite length_rev. apply rev_skipn_rev.
Qed.

Lemma kept_pos (len : nat) (n : Z) :
  (0 < n)%Z -> kept len n = Nat.min (Z.to_nat n) len.
Proof.
  intros Hn. unfold kept.
  destruct (Z.ltb_spec (- n) 0); lia.
Qed.

Lemma kept_zero (len : nat) : kept len 0 = len.
Proof.
  unfold kept. simpl. lia.
Qed.

Lemma kept_neg (len : nat) (n : Z) :
  (n < 0)%Z -> kept len n = len - Z.to_nat (- n).
Proof.
  intros Hn. unfold kept.
  destruct (Z.ltb_spec (- n) 0); lia.
Qed.

Lemma kept_le (len : nat) (n : Z) : kept len n <= len.
Proof.
  unfold kept. lia.
Qed.

(** ** Sorted lists and their prefixes *)

Lemma In_firstn (A : Type) (k : nat) (l : list A) (x : A) :
  In x (firstn k l) -> In x l.
Proof.
  intros H. rewrite <- (firstn_skipn k l). apply in_or_app. left. exact H.
Qed.

Lemma StronglySorted_firstn (A : Type) (R : A -> A -> Prop) (k : nat) (l : list A) :
  StronglySorted R l -> StronglySorted R (firstn k l).
Proof.
  intros H. revert k.
  induction H as [| x l Hs IH Hx]; intros [| k]; simpl; try constructor.
  - apply IH.
  - rewrite Forall_forall in *. intros y Hy.
    apply Hx. eapply In_firstn. exact Hy.
Qed.

Lemma StronglySorted_pair (A : Type) (R : A -> A -> Prop) (l : list A) :
  StronglySorted R l ->
  forall p q x y, p < q ->
    nth_error l p = Some x -> nth_error l q = Some y -> R x y.
Proof.
  induction 1 as [| h l Hs IH Hh]; intros p q x y Hpq Hp Hq.
  - destruct p; discriminate.
  - destruct q as [| q]; [lia |].
    simpl in Hq.
    destruct p as [| p].
    + simpl in Hp. injection Hp as <-.
      rewrite Forall_forall in Hh. apply Hh.
      eapply nth_error_In. exact Hq.
    + simpl in Hp. apply (IH p q); auto. lia.
Qed.

Lemma StronglySorted_map_inv (A B : Type) (f : A -> B) (R : B -> B -> Prop) (l : list A) :
  StronglySorted (fun x y => R (f x) (f y)) l -> StronglySorted R (map f l).
Proof.
  induction 1 as [| x l Hs IH Hx]; simpl; constructor; auto.
  rewrite Forall_forall in *. intros y Hy.
  apply in_map_iff in Hy. destruct Hy as [z [<- Hz]]. auto.
Qed.

(** ** The insertion sort *)

Section ArgsortFacts.

Variable A : Type.
Variable ltb : A -> A -> bool.
Variable default : A.

Hypothesis ltb_asym : forall x y, ltb x y = true -> ltb y x = false.
Hypothesis ltb_negtrans :
  forall x y z, ltb x y = false -> ltb y z = false -> ltb x z = false.

Variable a : list A.

Lemma shift_in_In (vi : nat) (l : list nat) (x : nat) :
  In x (shift_in ltb default a vi l) <-> x = vi \/ In x l.
Proof.
  induction l as [| k rest IH]; simpl.
  - intuition.
  - destruct (ltb (key default a vi) (key default a k)); simpl; rewrite ?IH; intuition.
Qed.

Lemma shift_in_perm (vi : nat) (l : list nat) :
  Permutation (shift_in ltb default a vi l) (vi :: l).
Proof.
  induction l as [| k rest IH]; simpl.
  - apply Permutation_refl.
  - destruct (ltb (key default a vi) (key default a k)).
    + rewrite IH. apply perm_swap.
    + apply Permutation_refl.
Qed.

Lemma shift_in_sorted (vi : nat) (l : list nat) :
  StronglySorted (before ltb default a) l ->
  (forall x, In x l -> x < vi) ->
  StronglySorted (before ltb default a) (shift_in ltb default a vi l).
Proof.
  induction 1 as [| k rest Hs IH Hk]; intros Hlt; simpl.
  - constructor; constructor.
  - rewrite Forall_forall in Hk.
    destruct (ltb (key default a vi) (key default a k)) eqn:E.
    + constructor.
      * apply IH. intros x Hx. apply Hlt. right. exact Hx.
      * rewrite Forall_forall. intros x Hx.
        apply shift_in_In in Hx. destruct Hx as [-> | Hx].
        -- split; [apply ltb_asym; exact E | left; exact E].
        -- apply Hk. exact Hx.
    + constructor.
      * constructor; [exact Hs | rewrite Forall_forall; exact Hk].
      * rewrite Forall_forall. intros x [<- | Hx].
        -- split; [exact E | right; apply Hlt; left; reflexivity].
        -- split.
           ++ apply ltb_negtrans with (key default a k); [exact E |].
              apply (Hk x Hx).
           ++ right. apply Hlt. right. exact Hx.
Qed.

Lemma insertion_steps (m s : nat) (acc : list nat) :
  Permutation acc (seq 0 s) ->
  StronglySorted (before ltb default a) acc ->
  Permutation
    (fold_left (fun acc vi => shift_in ltb default a vi acc) (seq s m) acc)
    (seq 0 (s + m)) /\
  StronglySorted (before ltb default a)
    (fold_left (fun acc vi => shift_in ltb default a vi acc) (seq s m) acc).
Proof.
  revert s acc. induction m as [| m IH]; intros s acc Hp Hs; simpl.
  - rewrite Nat.add_0_r. auto.
  - replace (s + S m) with (S s + m) by lia.
    apply IH.
    + rewrite shift_in_perm.
      replace (S s) with (s + 1) by lia.
      rewrite seq_app. simpl.
      rewrite Hp. apply Permutation_cons_append.
    + apply shift_in_sorted; [exact Hs |].
      intros x Hx.
      apply (Permutation_in _ Hp) in Hx. apply in_seq in Hx. lia.
Qed.

Lemma insertion_rev_perm :
  Permutation (insertion_rev ltb default a) (seq 0 (length a)).
Proof.
  apply (@insertion_steps (length a) 0 []).
  - apply Permutation_refl.
  - constructor.
Qed.

Lemma insertion_rev_sorted : StronglySorted (before ltb default a) (insertion_rev ltb default a).
Proof.
  apply (@insertion_steps (length a) 0 []).
  - apply Permutation_refl.
  - constructor.
Qed.

(** When no value is smaller than another, the indices stay in place. *)
Lemma insertion_rev_ties :
  (forall i j, ltb (key default a i) (key default a j) = false) ->
  insertion_rev ltb default a = rev (seq 0 (length a)).
Proof.
  intros Hties.
  assert (Hshift : forall vi l, shift_in ltb default a vi l = vi :: l).
  { intros vi [| k rest]; simpl; [reflexivity |].
    rewrite Hties. reflexivity. }
  unfold insertion_rev.
  rewrite <- (app_nil_r (rev (seq 0 (length a)))).
  generalize (seq 0 (length a)) ([] : list nat).
  induction l as [| x l IH]; intros acc; simpl.
  - reflexivity.
  - rewrite Hshift, IH, <- app_assoc. reflexivity.
Qed.

End ArgsortFacts.

(** The sort and the slices, run on integer values. *)

Example argsort_by_runs :
  argsort_by Z.ltb 0%Z [3; 1; 2; 1; 3; 0]%Z = [5; 1; 3; 2; 0; 4].
Proof. reflexivity. Qed.

Example top_two_runs :
  Py.reversed (Py.slice_from (- 2) (argsort_by Z.ltb 0%Z [3; 1; 2; 1; 3; 0]%Z))
  = [4; 0].
Proof. reflexivity. Qed.

Example top_zero_runs :
  Py.reversed (Py.slice_from (- 0) (argsort_by Z.ltb 0%Z [3; 1; 2; 1; 3; 0]%Z))
  = [4; 0; 2; 3; 1; 5].
Proof. reflexivity. Qed.

Example analyze_runs :
  analyze "Cats and dogs play, I a b_c x9!" =
  ["cats"; "and"; "dogs"; "play"; "b_c"; "x9"]%string.
Proof. reflexivity. Qed.

(** ** The comparison of real scores *)

Lemma Rltb_true (x y : R) : Rltb x y = true <-> (x < y)%R.
Proof.
  unfold Rltb. destruct (Rlt_dec x y); split; intros; try discriminate; tauto.
Qed.

Lemma Rltb_false (x y : R) : Rltb x y = false <-> (y <= x)%R.
Proof.
  unfold Rltb. destruct (Rlt_dec x y); split; intros; try discriminate; lra.
Qed.

Lemma Rltb_asym (x y : R) : Rltb x y = true -> Rltb y x = false.
Proof.
  rewrite Rltb_true, Rltb_false. lra.
Qed.

Lemma Rltb_negtrans (x y z : R) :
  Rltb x y = false -> Rltb y z = false -> Rltb x z = false.
Proof.
  rewrite !Rltb_false. lra.
Qed.

(** ** The insertion sort is admissible *)

Lemma StronglySorted_app (A : Type) (R : A -> A -> Prop) (l1 l2 : list A) :
  StronglySorted R l1 -> StronglySorted R l2 ->
  (forall x y, In x l1 -> In y l2 -> R x y) ->
  StronglySorted R (l1 ++ l2).
Proof.
  intros H1 H2 Hcross.
  induction H1 as [| x l1 Hs IH Hx]; simpl; [exact H2 |].
  constructor.
  - apply IH. intros a b Ha Hb. apply Hcross; [right; exact Ha | exact Hb].
  - rewrite Forall_forall in *. intros y Hy.
    apply in_app_or in Hy. destruct Hy as [Hy | Hy].
    + apply Hx. exact Hy.
    + apply Hcross; [left; reflexivity | exact Hy].
Qed.

Lemma StronglySorted_rev (A : Type) (R : A -> A -> Prop) (l : list A) :
  StronglySorted R l -> StronglySorted (fun x y => R y x) (rev l).
Proof.
  induction 1 as [| x l Hs IH Hx]; simpl; [constructor |].
  apply StronglySorted_app.
  - exact IH.
  - constructor; constructor.
  - intros a b Ha [<- | []]. rewrite Forall_forall in Hx.
    apply Hx. apply in_rev. exact Ha.
Qed.

Lemma StronglySorted_weaken (A : Type) (R R' : A -> A -> Prop) (l : list A) :
  (forall x y, R x y -> R' x y) -> StronglySorted R l -> StronglySorted R' l.
Proof.
  intros Himp. induction 1 as [| x l Hs IH Hx]; constructor; [exact IH |].
  rewrite Forall_forall in *. intros y Hy. apply Himp, Hx, Hy.
Qed.

Lemma insertion_argsort_admissible : admissible insertion_argsort.
Proof.
  intros a. unfold insertion_argsort, argsort_by. split.
  - rewrite <- Permutation_rev.
    apply insertion_rev_perm; [exact Rltb_asym | exact Rltb_negtrans].
  - apply (@StronglySorted_rev _ (fun i j => (score a j <= score a i)%R)).
    apply StronglySorted_weaken with (before Rltb 0%R a).
    + intros k j [H _]. apply Rltb_false in H. exact H.
    + apply insertion_rev_sorted; [exact Rltb_asym | exact Rltb_negtrans].
Qed.

(** On values that are all equal the insertion sort leaves the indices in
    place. *)
Lemma insertion_argsort_ties (a : list R) :
  (forall i j, score a i = score a j) ->
  insertion_argsort a = seq 0 (length a).
Proof.
  intros H. unfold insertion_argsort, argsort_by.
  rewrite insertion_rev_ties; [apply rev_involutive |].
  intros i j. apply Rltb_false.
  unfold score, key in *. rewrite (H i j). lra.
Qed.

Lemma score_repeat (x : R) (m i j : nat) :
  x = 0%R -> score (repeat x m) i = score (repeat x m) j.
Proof.
  intros ->. unfold score.
  assert (H : forall k, nth k (repeat 0%R m) 0%R = 0%R).
  { intros k. destruct (Nat.lt_ge_cases k (length (repeat 0%R m))).
    - apply nth_repeat_lt. rewrite repeat_length in H. exact H.
    - apply nth_overflow. exact H. }
  rewrite !H. reflexivity.
Qed.

(** * The notebook, for every admissible sort *)

Section Ranking.

Variable argsort : list R -> list nat.
Hypothesis argsort_admissible : admissible argsort.

(** ** The ranking *)

Lemma ranked_perm (cos_sims : list R) :
  Permutation (ranked argsort cos_sims) (seq 0 (length cos_sims)).
Proof.
  unfold ranked. rewrite <- Permutation_rev.
  apply (argsort_admissible cos_sims).
Qed.

Lemma ranked_length (cos_sims : list R) :
  length (ranked argsort cos_sims) = length cos_sims.
Proof.
  rewrite (Permutation_length (ranked_perm cos_sims)). apply length_seq.
Qed.

Lemma ranked_sorted (cos_sims : list R) :
  StronglySorted (fun i j => (score cos_sims j <= score cos_sims i)%R)
                 (ranked argsort cos_sims).
Proof.
  unfold ranked.
  apply (@StronglySorted_rev _ (fun i j => (score cos_sims i <= score cos_sims j)%R)).
  apply (argsort_admissible cos_sims).
Qed.

Lemma top_idxs_firstn (cos_sims : list R) (n : Z) :
  top_idxs argsort cos_sims n
  = firstn (kept (length cos_sims) n) (ranked argsort cos_sims).
Proof.
  unfold top_idxs.
  rewrite <- (rev_involutive (argsort cos_sims)) at 1.
  fold (ranked argsort cos_sims).
  rewrite reversed_slice_from, ranked_length. reflexivity.
Qed.

Lemma top_idxs_length (cos_sims : list R) (n : Z) :
  length (top_idxs argsort cos_sims n) = kept (length cos_sims) n.
Proof.
  rewrite top_idxs_firstn, length_firstn, ranked_length.
  pose proof (kept_le (length cos_sims) n). lia.
Qed.

Lemma top_idxs_in_range (cos_sims : list R) (n : Z) (i : nat) :
  In i (top_idxs argsort cos_sims n) -> i < length cos_sims.
Proof.
  rewrite top_idxs_firstn. intros H. apply In_firstn in H.
  apply (Permutation_in _ (ranked_perm cos_sims)) in H.
  apply in_seq in H. lia.
Qed.

Lemma top_idxs_NoDup (cos_sims : list R) (n : Z) :
  NoDup (top_idxs argsort cos_sims n).
Proof.
  rewrite top_idxs_firstn.
  assert (H : NoDup (ranked argsort cos_sims)).
  { apply (Permutation_NoDup (Permutation_sym (ranked_perm cos_sims))).
    apply seq_NoDup. }
  rewrite <- (firstn_skipn (kept (length cos_sims) n) (ranked argsort cos_sims)) in H.
  apply NoDup_app_remove_r in H. exact H.
Qed.

Lemma top_idxs_sorted (cos_sims : list R) (n : Z) :
  StronglySorted (fun i j => (score cos_sims j <= score cos_sims i)%R)
                 (top_idxs argsort cos_sims n).
Proof.
  rewrite top_idxs_firstn. apply StronglySorted_firstn, ranked_sorted.
Qed.

Lemma top_idxs_descending (cos_sims : list R) (n : Z) :
  StronglySorted Rge (map (score cos_sims) (top_idxs argsort cos_sims n)).
Proof.
  apply StronglySorted_map_inv.
  apply StronglySorted_weaken
    with (fun i j => (score cos_sims j <= score cos_sims i)%R).
  - intros i j H. lra.
  - apply top_idxs_sorted.
Qed.

(** The selection reverses the order of the sort: of two selected indices
    the earlier one is the later one in the result of [argsort]. *)
Lemma top_idxs_reverses (cos_sims : list R) (n : Z) (p q i j : nat) :
  p < q ->
  nth_error (top_idxs argsort cos_sims n) p = Some i ->
  nth_error (top_idxs argsort cos_sims n) q = Some j ->
  exists p' q',
    nth_error (argsort cos_sims) p' = Some i /\
    nth_error (argsort cos_sims) q' = Some j /\
    q' < p'.
Proof.
  intros Hpq Hp Hq.
  rewrite top_idxs_firstn, nth_error_firstn in Hp, Hq.
  destruct (p <? kept (length cos_sims) n); [| discriminate].
  destruct (q <? kept (length cos_sims) n); [| discriminate].
  unfold ranked in Hp, Hq. rewrite nth_error_rev in Hp, Hq.
  destruct (Nat.ltb_spec p (length (argsort cos_sims))); [| discriminate].
  destruct (Nat.ltb_spec q (length (argsort cos_sims))); [| discriminate].
  exists (length (argsort cos_sims) - S p), (length (argsort cos_sims) - S q).
  repeat split; [exact Hp | exact Hq | lia].
Qed.

(** * Facts about the vectorizer *)

(** ** Vocabulary *)

Lemma insert_term_In (t x : string) (l : list string) :
  In x (insert_term t l) <-> x = t \/ In x l.
Proof.
  induction l as [| u l IH]; simpl.
  - intuition.
  - destruct (String.leb t u); simpl; rewrite ?IH; intuition.
Qed.

Lemma sort_terms_In (x : string) (l : list string) :
  In x (sort_terms l) <-> In x l.
Proof.
  induction l as [| t l IH]; simpl.
  - tauto.
  - rewrite insert_term_In, IH. intuition.
Qed.

Lemma insert_term_length (t : string) (l : list string) :
  length (insert_term t l) = S (length l).
Proof.
  induction l as [| u l IH]; simpl; [reflexivity |].
  destruct (String.leb t u); simpl; [| rewrite IH]; reflexivity.
Qed.

Lemma vocabulary_In (corpus : list string) (t : string) :
  In t (vocabulary corpus) <-> exists d, In d corpus /\ In t (analyze d).
Proof.
  unfold vocabulary.
  rewrite sort_terms_In, nodup_In, in_concat.
  split.
  - intros [toks [Htoks Ht]].
    apply in_map_iff in Htoks. destruct Htoks as [d [<- Hd]]. eauto.
  - intros [d [Hd Ht]]. exists (analyze d). split; [| exact Ht].
    apply in_map. exact Hd.
Qed.

Lemma vocabulary_nil (corpus : list string) :
  vocabulary corpus = [] <-> Forall (fun d => analyze d = []) corpus.
Proof.
  rewrite Forall_forall. split.
  - intros Hv d Hd.
    destruct (analyze d) as [| t toks] eqn:E; [reflexivity |].
    assert (Ht : In t (vocabulary corpus)).
    { apply vocabulary_In. exists d. rewrite E. simpl. auto. }
    rewrite Hv in Ht. destruct Ht.
  - intros Hall.
    destruct (vocabulary corpus) as [| t v] eqn:E; [reflexivity |].
    assert (Ht : In t (vocabulary corpus)) by (rewrite E; simpl; auto).
    apply vocabulary_In in Ht. destruct Ht as [d [Hd Ht]].
    rewrite (Hall d Hd) in Ht. destruct Ht.
Qed.

(** ** Shapes *)

Lemma idf_vector_length (corpus : list string) :
  length (idf_vector corpus) = length (vocabulary corpus).
Proof.
  unfold idf_vector. rewrite length_map, length_seq. reflexivity.
Qed.

Lemma tfidf_rows (corpus : list string) :
  map normalize_row (tfidf_raw corpus) = map (weights corpus) corpus.
Proof.
  unfold tfidf_raw, count_matrix, weights.
  rewrite !map_map. reflexivity.
Qed.

Lemma fit_transform_spec (corpus : list string) :
  fit_transform corpus =
  match vocabulary corpus with
  | [] => Raise EmptyVocabulary
  | _ :: _ => Ok (map (weights corpus) corpus)
  end.
Proof.
  unfold fit_transform. rewrite tfidf_rows. reflexivity.
Qed.

(** ** The similarities of a corpus that ends with the query *)

Lemma slice_to_last (A : Type) (l : list A) (x : A) :
  Py.slice_to (-1) (l ++ [x]) = l.
Proof.
  unfold Py.slice_to. rewrite length_app. simpl length.
  change (-1 <? 0)%Z with true. cbv iota.
  replace (Z.to_nat _) with (length l) by lia.
  rewrite firstn_app, Nat.sub_diag, firstn_all. simpl.
  apply app_nil_r.
Qed.

Lemma last_item_last (A : Type) (l : list A) (x : A) :
  Py.last_item (l ++ [x]) = Ok x.
Proof.
  unfold Py.last_item. rewrite rev_app_distr. reflexivity.
Qed.

Lemma similarities_length (movies : DataFrame) (query : string) :
  length (similarities movies query) = length movies.
Proof.
  apply length_map.
Qed.

Lemma calculate_cos_similarities_app (docs : list string) (q : string) :
  calculate_cos_similarities (docs ++ [q]) =
  match vocabulary (docs ++ [q]), docs with
  | [], _ => Raise EmptyVocabulary
  | _ :: _, [] => Raise NoSamples
  | _ :: _, _ :: _ => Ok (map (fun d => similarity (docs ++ [q]) d q) docs)
  end.
Proof.
  unfold calculate_cos_similarities. rewrite fit_transform_spec.
  unfold similarity. set (W := weights (docs ++ [q])). clearbody W.
  destruct (vocabulary (docs ++ [q])) as [| t v]; [reflexivity |].
  cbn [bind]. rewrite map_app. cbn [map].
  rewrite last_item_last, slice_to_last. cbn [bind].
  destruct docs as [| d docs]; [reflexivity |].
  unfold cosine_similarity. cbn [map bind]. f_equal.
  unfold flatten. cbn [concat app]. f_equal.
  induction docs as [| x l IH]; cbn [map concat app]; [reflexivity |].
  rewrite IH. reflexivity.
Qed.

Lemma calculate_cos_similarities_spec (movies : DataFrame) (query : string) :
  calculate_cos_similarities (form_corpus movies query) =
  match vocabulary (form_corpus movies query), movies with
  | [], _ => Raise EmptyVocabulary
  | _ :: _, [] => Raise NoSamples
  | _ :: _, _ :: _ => Ok (similarities movies query)
  end.
Proof.
  unfold form_corpus at 1. rewrite calculate_cos_similarities_app.
  fold (form_corpus movies query).
  destruct (vocabulary (form_corpus movies query)); [reflexivity |].
  destruct movies as [| m movies]; [reflexivity |].
  unfold similarities. rewrite map_map. reflexivity.
Qed.

(** ** Row selection *)

Lemma iloc_in_range (movies : DataFrame) (idxs : list nat) :
  Forall (fun i => i < length movies) idxs ->
  exists rows,
    iloc movies idxs = Ok rows /\
    map fst rows = idxs /\
    Forall2 (fun i m => nth_error movies i = Some m) idxs (map snd rows).
Proof.
  induction 1 as [| i idxs Hi Hall [rows [Hrows [Hfst Hsnd]]]]; simpl.
  - exists []. repeat split. constructor.
  - destruct (nth_error movies i) as [m |] eqn:E.
    + exists ((i, m) :: rows). rewrite Hrows. simpl.
      repeat split; [rewrite Hfst; reflexivity |].
      constructor; assumption.
    + apply nth_error_None in E. lia.
Qed.

Lemma find_recommendations_raise (movies : DataFrame) (query : string) (n : Z) (e : exn) :
  calculate_cos_similarities (form_corpus movies query) = Raise e ->
  find_recommendations argsort movies query n = Raise e.
Proof.
  intros H. unfold find_recommendations. rewrite H. reflexivity.
Qed.

Lemma find_recommendations_ok (movies : DataFrame) (query : string) (n : Z)
      (cos_sims : list R) :
  calculate_cos_similarities (form_corpus movies query) = Ok cos_sims ->
  length cos_sims = length movies /\
  exists rows,
    find_recommendations argsort movies query n = Ok rows /\
    Forall2 (fun i m => nth_error movies i = Some m) (top_idxs argsort cos_sims n) rows.
Proof.
  intros H.
  assert (Hlen : length cos_sims = length movies).
  { rewrite calculate_cos_similarities_spec in H.
    destruct (vocabulary _); [discriminate |].
    destruct movies; [discriminate |].
    injection H as <-. apply similarities_length. }
  split; [exact Hlen |].
  destruct (@iloc_in_range movies (top_idxs argsort cos_sims n)) as [rows [Hrows [_ Hsnd]]].
  { rewrite Forall_forall. intros i Hi.
    rewrite <- Hlen. eapply top_idxs_in_range. exact Hi. }
  exists (map snd rows). split; [| exact Hsnd].
  unfold find_recommendations. rewrite H. simpl. rewrite Hrows. reflexivity.
Qed.

(** ** Norms and zero vectors *)

Open Scope R_scope.

Lemma sum_squares_nonneg (v : list R) : 0 <= sum_squares v.
Proof.
  induction v as [| x v IH]; simpl; [lra | nra].
Qed.

Lemma sum_squares_all_zero (v : list R) : all_zero v -> sum_squares v = 0.
Proof.
  induction 1 as [| x v Hx Hv IH]; simpl; [reflexivity |].
  rewrite IH, Hx. lra.
Qed.

Lemma sum_squares_pos (v : list R) (x : R) :
  In x v -> x <> 0 -> 0 < sum_squares v.
Proof.
  induction v as [| y v IH]; simpl; [tauto |].
  intros [-> | Hin] Hx.
  - pose proof (sum_squares_nonneg v). nra.
  - pose proof (IH Hin Hx). nra.
Qed.

Lemma normalize_row_all_zero (v : list R) : all_zero v -> normalize_row v = v.
Proof.
  intros H. unfold normalize_row, l2_norm.
  rewrite (sum_squares_all_zero H), sqrt_0.
  destruct (Req_dec_T 0 0); [reflexivity | contradiction].
Qed.

Lemma normalize_row_length (v : list R) : length (normalize_row v) = length v.
Proof.
  unfold normalize_row.
  destruct (Req_dec_T (l2_norm v) 0); [reflexivity | apply length_map].
Qed.

Lemma dot_all_zero_r (u v : list R) : all_zero v -> dot u v = 0.
Proof.
  intros H. revert u.
  induction H as [| y v Hy Hv IH]; intros [| x u]; simpl; try reflexivity.
  rewrite IH, Hy. lra.
Qed.

Lemma sum_squares_scale (v : list R) (c : R) :
  c <> 0 -> sum_squares (map (fun x => x / c) v) = sum_squares v / (c * c).
Proof.
  intros Hc.
  induction v as [| x v IH]; simpl.
  - unfold Rdiv. lra.
  - rewrite IH. field. exact Hc.
Qed.

Lemma normalize_row_unit (v : list R) :
  0 < sum_squares v -> l2_norm (normalize_row v) = 1.
Proof.
  intros Hpos.
  assert (Hn : 0 < l2_norm v) by (apply sqrt_lt_R0; exact Hpos).
  unfold normalize_row.
  destruct (Req_dec_T (l2_norm v) 0) as [E | E]; [lra |].
  unfold l2_norm at 1. rewrite (sum_squares_scale v E).
  unfold l2_norm. rewrite sqrt_def by lra.
  replace (sum_squares v / sum_squares v) with 1 by (field; lra).
  apply sqrt_1.
Qed.

(** ** Inverse document frequencies *)

Lemma idf_ge_1 (n df : nat) : (df <= n)%nat -> 1 <= idf n df.
Proof.
  intros Hle. unfold idf.
  assert (Hd : 0 < INR (df + 1)) by (apply lt_0_INR; lia).
  assert (Hn : INR (df + 1) <= INR (n + 1)) by (apply le_INR; lia).
  assert (Hq : 1 <= INR (n + 1) / INR (df + 1)).
  { apply Rmult_le_reg_r with (INR (df + 1)); [exact Hd |].
    unfold Rdiv. rewrite Rmult_assoc, Rinv_l by lra. lra. }
  destruct (Req_dec_T (INR (n + 1) / INR (df + 1)) 1) as [E | E].
  - rewrite E, ln_1. lra.
  - assert (H : ln 1 < ln (INR (n + 1) / INR (df + 1))).
    { apply ln_increasing; lra. }
    rewrite ln_1 in H. lra.
Qed.

Lemma document_frequency_le (X : list (list nat)) (j : nat) :
  (document_frequency X j <= length X)%nat.
Proof.
  unfold document_frequency. apply filter_length_le.
Qed.

Lemma count_matrix_length (corpus : list string) :
  length (count_matrix corpus) = length corpus.
Proof.
  apply length_map.
Qed.

Lemma idf_vector_nth_error (corpus : list string) (j : nat) :
  (j < length (vocabulary corpus))%nat ->
  nth_error (idf_vector corpus) j =
  Some (idf (length corpus) (document_frequency (count_matrix corpus) j)).
Proof.
  intros Hj. unfold idf_vector.
  rewrite nth_error_map, nth_error_seq.
  apply Nat.ltb_lt in Hj. rewrite Hj. reflexivity.
Qed.

(** ** Raw weights *)

Lemma scale_row_nth_error (counts : list nat) (idfs : list R) (j c : nat) (w : R) :
  nth_error counts j = Some c ->
  nth_error idfs j = Some w ->
  nth_error (scale_row counts idfs) j = Some (INR c * w).
Proof.
  revert idfs j.
  induction counts as [| c0 counts IH]; intros idfs j Hc Hw.
  - destruct j; discriminate.
  - destruct idfs as [| w0 idfs]; [destruct j; discriminate |].
    destruct j as [| j]; simpl in *.
    + injection Hc as ->. injection Hw as ->. reflexivity.
    + apply IH; assumption.
Qed.

Lemma scale_row_length (counts : list nat) (idfs : list R) :
  length counts = length idfs ->
  length (scale_row counts idfs) = length counts.
Proof.
  revert idfs.
  induction counts as [| c counts IH]; intros [| w idfs] H; simpl in *;
    try reflexivity; try discriminate.
  rewrite IH; [reflexivity | lia].
Qed.

Lemma scale_row_all_zero (counts : list nat) (idfs : list R) :
  Forall (fun c => c = 0%nat) counts -> all_zero (scale_row counts idfs).
Proof.
  intros H. revert idfs.
  induction H as [| c counts Hc Hall IH]; intros [| w idfs]; simpl;
    try constructor.
  - rewrite Hc. simpl. lra.
  - apply IH.
Qed.

Close Scope R_scope.

(** ** The weight vector of an entry *)

Lemma all_zero_repeat (v : list R) : all_zero v -> v = repeat 0%R (length v).
Proof.
  induction 1 as [| x v Hx Hv IH]; simpl; [reflexivity |].
  rewrite Hx, <- IH. reflexivity.
Qed.

Lemma repeat_all_zero (k : nat) : all_zero (repeat 0%R k).
Proof.
  induction k; simpl; constructor; auto.
Qed.

Lemma weights_length (corpus : list string) (d : string) :
  length (weights corpus d) = length (vocabulary corpus).
Proof.
  unfold weights. rewrite normalize_row_length, scale_row_length.
  - apply length_map.
  - rewrite length_map, idf_vector_length. reflexivity.
Qed.

Lemma weights_no_terms (corpus : list string) (d : string) :
  analyze d = [] -> weights corpus d = repeat 0%R (length (vocabulary corpus)).
Proof.
  intros Hd.
  assert (Hz : all_zero (scale_row (map (term_count d) (vocabulary corpus))
                                   (idf_vector corpus))).
  { apply scale_row_all_zero. rewrite Forall_forall. intros c Hc.
    apply in_map_iff in Hc. destruct Hc as [t [<- _]].
    unfold term_count. rewrite Hd. reflexivity. }
  rewrite <- (weights_length corpus d).
  apply all_zero_repeat.
  unfold weights. rewrite (normalize_row_all_zero Hz). exact Hz.
Qed.

Lemma weights_unit (corpus : list string) (d : string) :
  In d corpus -> analyze d <> [] -> l2_norm (weights corpus d) = 1%R.
Proof.
  intros Hd Hne.
  destruct (analyze d) as [| t toks] eqn:E; [congruence |].
  assert (Ht : In t (analyze d)) by (rewrite E; simpl; auto).
  assert (Hv : In t (vocabulary corpus)) by (apply vocabulary_In; eauto).
  destruct (In_nth_error _ _ Hv) as [j Hj].
  assert (Hlt : j < length (vocabulary corpus)).
  { apply nth_error_Some. congruence. }
  unfold weights. apply normalize_row_unit.
  apply sum_squares_pos with
    (INR (term_count d t) *
     idf (length corpus) (document_frequency (count_matrix corpus) j))%R.
  - eapply nth_error_In. apply scale_row_nth_error.
    + apply map_nth_error. exact Hj.
    + apply idf_vector_nth_error. exact Hlt.
  - assert (Hc : (1 <= INR (term_count d t))%R).
    { change 1%R with (INR 1). apply le_INR.
      unfold term_count. apply (count_occ_In string_dec) in Ht. lia. }
    assert (Hw : (1 <= idf (length corpus)
                       (document_frequency (count_matrix corpus) j))%R).
    { apply idf_ge_1. rewrite <- (count_matrix_length corpus).
      apply document_frequency_le. }
    nra.
Qed.

Lemma similarity_no_terms (corpus : list string) (d q : string) :
  analyze q = [] -> similarity corpus d q = 0%R.
Proof.
  intros Hq. unfold similarity.
  apply dot_all_zero_r.
  rewrite (@weights_no_terms corpus q Hq).
  rewrite (normalize_row_all_zero (repeat_all_zero _)).
  apply repeat_all_zero.
Qed.

Lemma similarities_no_terms (movies : DataFrame) (query : string) :
  analyze query = [] ->
  similarities movies query = repeat 0%R (length movies).
Proof.
  intros Hq. unfold similarities.
  generalize (form_corpus movies query). intros corpus.
  induction movies as [| m movies IH]; simpl; [reflexivity |].
  rewrite IH, (@similarity_no_terms _ _ query Hq). reflexivity.
Qed.

(** * The rows that are returned *)

Lemma selected_rows (movies : DataFrame) (idxs : list nat) (rows : list movie)
      (d : movie) :
  Forall2 (fun i m => nth_error movies i = Some m) idxs rows ->
  rows = map (fun i => nth i movies d) idxs.
Proof.
  induction 1 as [| i m idxs rows Him Hrest IH]; simpl; [reflexivity |].
  rewrite (nth_error_nth _ _ d Him), <- IH. reflexivity.
Qed.

Lemma map_nth_seq (A : Type) (l : list A) (d : A) :
  map (fun i => nth i l d) (seq 0 (length l)) = l.
Proof.
  induction l as [| x l IH]; simpl; [reflexivity |].
  rewrite <- seq_shift, map_map. simpl. rewrite IH. reflexivity.
Qed.

(** With every score tied, the rows come out from the last to the first. *)
Lemma tied_rows (A : Type) (l : list A) (d : A) (k : nat) :
  map (fun i => nth i l d) (firstn k (rev (seq 0 (length l)))) = firstn k (rev l).
Proof.
  rewrite <- firstn_map, map_rev, map_nth_seq. reflexivity.
Qed.

Lemma no_terms_query_has_movies (movies : DataFrame) (query : string) :
  analyze query = [] ->
  vocabulary (form_corpus movies query) <> [] ->
  movies <> [].
Proof.
  intros Hq Hv ->. apply Hv. apply vocabulary_nil.
  constructor; [exact Hq | constructor].
Qed.

(** Whether an index list names every row exactly once. *)
Lemma all_rows_selected (movies : DataFrame) (idxs : list nat) (rows : list movie) :
  Forall2 (fun i m => nth_error movies i = Some m) idxs rows ->
  Permutation idxs (seq 0 (length movies)) ->
  Permutation rows movies.
Proof.
  intros Hsel Hp.
  destruct movies as [| d movies].
  - simpl in Hp. apply Permutation_sym, Permutation_nil in Hp. subst idxs.
    inversion Hsel. apply Permutation_refl.
  - rewrite (@selected_rows _ _ _ d Hsel).
    eapply Permutation_trans; [apply Permutation_map; exact Hp |].
    rewrite map_nth_seq. apply Permutation_refl.
Qed.

(** A query without terms: every score is zero. *)
Lemma calculate_cos_similarities_no_terms (movies : DataFrame) (query : string) :
  analyze query = [] ->
  vocabulary (form_corpus movies query) <> [] ->
  calculate_cos_similarities (form_corpus movies query)
  = Ok (repeat 0%R (length movies)).
Proof.
  intros Hq Hv.
  pose proof (@no_terms_query_has_movies movies query Hq Hv) as Hm.
  rewrite calculate_cos_similarities_spec.
  destruct (vocabulary (form_corpus movies query)); [congruence |].
  destruct movies as [| m movies]; [congruence |].
  rewrite (@similarities_no_terms _ query Hq). reflexivity.
Qed.

(** The number of rows, for every count. *)
Lemma find_recommendations_length (movies : DataFrame) (query : string) (n : Z)
      (cos_sims : list R) :
  calculate_cos_similarities (form_corpus movies query) = Ok cos_sims ->
  exists rows,
    find_recommendations argsort movies query n = Ok rows /\
    length rows = kept (length movies) n.
Proof.
  intros Hc.
  destruct (@find_recommendations_ok movies query n _ Hc) as [Hlen [rows [Hr Hsel]]].
  exists rows. split; [exact Hr |].
  rewrite <- (Forall2_length Hsel), top_idxs_length, Hlen. reflexivity.
Qed.

(** ** Document frequency, counted on the entries *)

Lemma filter_map_length (A B : Type) (g : A -> B) (p : B -> bool) (l : list A) :
  length (filter p (map g l)) = length (filter (fun x => p (g x)) l).
Proof.
  induction l as [| x l IH]; simpl; [reflexivity |].
  destruct (p (g x)); simpl; rewrite IH; reflexivity.
Qed.

Lemma contains_term_count (t d : string) :
  contains_term t d = negb (term_count d t =? 0).
Proof.
  unfold contains_term, term_count.
  destruct (in_dec string_dec t (analyze d)) as [Hin | Hout].
  - apply (count_occ_In string_dec) in Hin.
    destruct (Nat.eqb_spec (count_occ string_dec (analyze d) t) 0); [lia | reflexivity].
  - apply (count_occ_not_In string_dec) in Hout. rewrite Hout. reflexivity.
Qed.

Lemma document_frequency_df (corpus : list string) (j : nat) (t : string) :
  nth_error (vocabulary corpus) j = Some t ->
  document_frequency (count_matrix corpus) j = df corpus t.
Proof.
  intros Hj. unfold document_frequency, count_matrix, df.
  rewrite filter_map_length. f_equal.
  apply filter_ext. intros d.
  rewrite contains_term_count. do 2 f_equal.
  apply nth_error_nth. apply map_nth_error. exact Hj.
Qed.

Lemma sample_vocabulary (query : string) :
  vocabulary (form_corpus sample_movies query) <> [].
Proof.
  intros H. apply vocabulary_nil in H.
  apply Forall_inv in H. vm_compute in H. discriminate.
Qed.

(** * The properties of the specification *)

(** ** Ties *)

(** C1, as the code has it: in the result of [find_recommendations] no
    document stands before a document with a greater score, and two
    documents, with equal scores or not, stand in the reverse of the order
    in which [argsort] returned them.  Nothing else orders documents with
    equal scores: of [argsort] it is only assumed that it sorts. *)
Theorem C1_ties_in_reverse_sort_order (movies : DataFrame) (query : string) (n : Z) :
  match calculate_cos_similarities (form_corpus movies query) with
  | Ok cos_sims =>
      exists rows,
        find_recommendations argsort movies query n = Ok rows /\
        Forall2 (fun i m => nth_error movies i = Some m)
                (top_idxs argsort cos_sims n) rows /\
        forall p q i j,
          p < q ->
          nth_error (top_idxs argsort cos_sims n) p = Some i ->
          nth_error (top_idxs argsort cos_sims n) q = Some j ->
          (score cos_sims j <= score cos_sims i)%R /\
          exists p' q',
            nth_error (argsort cos_sims) p' = Some i /\
            nth_error (argsort cos_sims) q' = Some j /\
            q' < p'
  | Raise e => find_recommendations argsort movies query n = Raise e
  end.
Proof.
  destruct (calculate_cos_similarities (form_corpus movies query))
    as [cos_sims | e] eqn:Hc.
  - destruct (@find_recommendations_ok movies query n _ Hc) as [_ [rows [Hr Hsel]]].
    exists rows. split; [exact Hr |]. split; [exact Hsel |].
    intros p q i j Hpq Hp Hq. split.
    + exact (@StronglySorted_pair _ _ _ (top_idxs_sorted cos_sims n) p q i j Hpq Hp Hq).
    + exact (@top_idxs_reverses cos_sims n p q i j Hpq Hp Hq).
  - apply find_recommendations_raise. exact Hc.
Qed.

(** ** A count that is not positive *)

(** A count of 0 returns as many rows as there are documents, whatever the
    scores are. *)
Lemma find_recommendations_zero_count (movies : DataFrame) (query : string)
      (cos_sims : list R) :
  calculate_cos_similarities (form_corpus movies query) = Ok cos_sims ->
  exists rows,
    find_recommendations argsort movies query 0 = Ok rows /\ length rows = length movies.
Proof.
  intros Hc.
  destruct (@find_recommendations_ok movies query 0%Z _ Hc) as [Hlen [rows [Hr Hsel]]].
  exists rows. split; [exact Hr |].
  rewrite <- (Forall2_length Hsel), top_idxs_length, kept_zero. exact Hlen.
Qed.

(** ** A query without terms *)

(** C3, as the code has it: when some document has a term and the query has
    none, every score is 0 and, for a positive count [n], the result has
    [min n size] rows, taken at pairwise distinct positions: the last
    indices that [argsort] returns for the equal scores, in reverse.  These
    need not be the first documents of the corpus. *)
Theorem C3_no_terms_query_rows (movies : DataFrame) (query : string) (n : Z) :
  Exists (fun m => analyze (Plot m) <> []) movies ->
  analyze query = [] ->
  (0 < n)%Z ->
  calculate_cos_similarities (form_corpus movies query)
    = Ok (repeat 0%R (length movies)) /\
  exists rows,
    find_recommendations argsort movies query n = Ok rows /\
    length rows = Nat.min (Z.to_nat n) (length movies) /\
    NoDup (top_idxs argsort (repeat 0%R (length movies)) n) /\
    Forall2 (fun i m => nth_error movies i = Some m)
            (top_idxs argsort (repeat 0%R (length movies)) n) rows /\
    top_idxs argsort (repeat 0%R (length movies)) n
    = rev (skipn (length movies - Nat.min (Z.to_nat n) (length movies))
                 (argsort (repeat 0%R (length movies)))).
Proof.
  intros Hm Hq Hn.
  assert (Hv : vocabulary (form_corpus movies query) <> []).
  { intros Hv. apply vocabulary_nil in Hv.
    apply Exists_exists in Hm. destruct Hm as [m [Hin Hne]].
    apply Hne. rewrite Forall_forall in Hv. apply Hv.
    unfold form_corpus. apply in_or_app. left. apply in_map. exact Hin. }
  pose proof (@calculate_cos_similarities_no_terms movies query Hq Hv) as Hc.
  split; [exact Hc |].
  destruct (@find_recommendations_ok movies query n _ Hc) as [Hlen [rows [Hr Hsel]]].
  exists rows. split; [exact Hr |].
  split.
  { rewrite <- (Forall2_length Hsel), top_idxs_length, Hlen.
    apply kept_pos. exact Hn. }
  split; [apply top_idxs_NoDup |].
  split; [exact Hsel |].
  assert (Hl : length (argsort (repeat 0%R (length movies))) = length movies).
  { rewrite <- Hlen at 2. rewrite <- (ranked_length (repeat 0%R (length movies))).
    unfold ranked. symmetry. apply length_rev. }
  rewrite top_idxs_firstn, Hlen, (kept_pos _ Hn).
  unfold ranked. rewrite firstn_rev, Hl. reflexivity.
Qed.

(** ** The number of results *)

(** C4, as the code has it: for a non-empty corpus, a query and a positive
    count [n] such that some entry of the corpus or the query has a term,
    [find_recommendations] returns [min n size] rows, and all the documents
    when [n] is at least the size. *)
Theorem C4_result_count (movies : DataFrame) (query : string) (n : Z) :
  movies <> [] ->
  vocabulary (form_corpus movies query) <> [] ->
  (0 < n)%Z ->
  exists rows,
    find_recommendations argsort movies query n = Ok rows /\
    length rows = Nat.min (Z.to_nat n) (length movies) /\
    ((Z.of_nat (length movies) <= n)%Z -> Permutation rows movies).
Proof.
  intros Hm Hv Hn.
  pose proof (calculate_cos_similarities_spec movies query) as Hc.
  destruct (vocabulary (form_corpus movies query)) as [| t v]; [congruence |].
  destruct movies as [| m movies]; [congruence |].
  destruct (@find_recommendations_ok (m :: movies) query n _ Hc)
    as [Hlen [rows [Hr Hsel]]].
  exists rows. split; [exact Hr |]. split.
  - rewrite <- (Forall2_length Hsel), top_idxs_length, Hlen.
    apply kept_pos. exact Hn.
  - intros Hall. eapply all_rows_selected; [exact Hsel |].
    rewrite top_idxs_firstn, firstn_all2.
    + rewrite <- Hlen. apply ranked_perm.
    + rewrite ranked_length, (kept_pos _ Hn), Hlen. lia.
Qed.

(** ** An empty corpus *)

(** C5: with no document at all, [find_recommendations] raises an error,
    whatever the query and the count: the empty vocabulary when the query
    has no term, the missing samples otherwise. *)
Theorem C5_empty_corpus_raises (query : string) (n : Z) :
  find_recommendations argsort [] query n =
  Raise (match analyze query with
         | [] => EmptyVocabulary
         | _ :: _ => NoSamples
         end).
Proof.
  apply find_recommendations_raise.
  rewrite calculate_cos_similarities_spec.
  destruct (vocabulary (form_corpus [] query)) as [| t v] eqn:Ev.
  - apply vocabulary_nil in Ev. apply Forall_inv in Ev.
    rewrite Ev. reflexivity.
  - destruct (analyze query) as [| u toks] eqn:Eq; [| reflexivity].
    assert (Hnil : vocabulary (form_corpus [] query) = []).
    { apply vocabulary_nil. constructor; [exact Eq | constructor]. }
    congruence.
Qed.

(** ** Entries without terms *)

(** C6, refuted as stated: on two strings without a term the vectorizer
    raises, and so does the computation of the similarities. *)
Lemma C6_all_zero_vectors_fails :
  fit_transform ["?!"; "a"]%string = Raise EmptyVocabulary /\
  calculate_cos_similarities ["?!"; "a"]%string = Raise EmptyVocabulary.
Proof.
  split; reflexivity.
Qed.

Lemma dot_all_zero_l (u v : list R) : all_zero u -> dot u v = 0%R.
Proof.
  intros H. revert v.
  induction H as [| x u Hx Hu IH]; intros [| y v]; simpl; try reflexivity.
  rewrite IH, Hx. lra.
Qed.

Lemma similarity_no_terms_doc (corpus : list string) (d q : string) :
  analyze d = [] -> similarity corpus d q = 0%R.
Proof.
  intros Hd. unfold similarity.
  apply dot_all_zero_l.
  rewrite (@weights_no_terms corpus d Hd).
  rewrite (normalize_row_all_zero (repeat_all_zero _)).
  apply repeat_all_zero.
Qed.

Lemma Forall2_map_self (A B : Type) (f : A -> B) (P : A -> B -> Prop) (l : list A) :
  (forall x, In x l -> P x (f x)) -> Forall2 P l (map f l).
Proof.
  induction l as [| x l IH]; intros H; simpl; constructor.
  - apply H. left. reflexivity.
  - apply IH. intros y Hy. apply H. right. exact Hy.
Qed.

(** C6, as the code has it.  When every string has no term, the vectorizer
    raises the empty-vocabulary error and no similarity is computed.  In
    every corpus that has a term, the vectorizer gives an entry without
    terms the all-zero vector, which normalisation leaves as it is (the
    zero norm is not divided by); and in the similarities of a corpus that
    ends with the query, a document without terms scores 0, and every
    document scores 0 when the query has no term. *)
Theorem C6_no_terms_raises (corpus : list string) :
  (Forall (fun d => analyze d = []) corpus ->
   fit_transform corpus = Raise EmptyVocabulary /\
   calculate_cos_similarities corpus = Raise EmptyVocabulary) /\
  (vocabulary corpus <> [] ->
   exists M,
     fit_transform corpus = Ok M /\
     Forall2 (fun d row =>
                analyze d = [] ->
                row = repeat 0%R (length (vocabulary corpus)) /\
                normalize_row row = row)
             corpus M) /\
  (forall docs q,
     corpus = docs ++ [q] -> docs <> [] -> vocabulary corpus <> [] ->
     exists cos_sims,
       calculate_cos_similarities corpus = Ok cos_sims /\
       Forall2 (fun d s => analyze d = [] \/ analyze q = [] -> s = 0%R)
               docs cos_sims).
Proof.
  split; [| split].
  - intros Hall. apply vocabulary_nil in Hall.
    assert (Hf : fit_transform corpus = Raise EmptyVocabulary).
    { rewrite fit_transform_spec, Hall. reflexivity. }
    split; [exact Hf |].
    unfold calculate_cos_similarities. rewrite Hf. reflexivity.
  - intros Hv. exists (map (weights corpus) corpus). split.
    + rewrite fit_transform_spec.
      destruct (vocabulary corpus); [congruence | reflexivity].
    + apply Forall2_map_self. intros d _ Hd.
      rewrite (@weights_no_terms corpus d Hd). split; [reflexivity |].
      apply normalize_row_all_zero, repeat_all_zero.
  - intros docs q -> Hdocs Hv.
    exists (map (fun d => similarity (docs ++ [q]) d q) docs). split.
    + rewrite calculate_cos_similarities_app.
      destruct (vocabulary (docs ++ [q])); [congruence |].
      destruct docs; [congruence | reflexivity].
    + apply Forall2_map_self. intros d _ [Hd | Hq].
      * apply similarity_no_terms_doc. exact Hd.
      * apply similarity_no_terms. exact Hq.
Qed.

Lemma C6_no_terms_raises_witness :
  (fit_transform [empty_query; "x"; "- -"]%string = Raise EmptyVocabulary /\
   calculate_cos_similarities [empty_query; "x"; "- -"]%string
   = Raise EmptyVocabulary) /\
  (exists M,
     fit_transform ["cats and dogs"; "?!"; "dogs"]%string = Ok M /\
     Forall2 (fun d row =>
                analyze d = [] ->
                row = repeat 0%R
                        (length (vocabulary ["cats and dogs"; "?!"; "dogs"]%string)) /\
                normalize_row row = row)
             ["cats and dogs"; "?!"; "dogs"]%string M) /\
  (exists cos_sims,
     calculate_cos_similarities ["cats and dogs"; "?!"; "dogs"]%string = Ok cos_sims /\
     Forall2 (fun d s => analyze d = [] \/ analyze "dogs" = [] -> s = 0%R)
             ["cats and dogs"; "?!"]%string cos_sims).
Proof.
  split; [| split].
  - apply (proj1 (C6_no_terms_raises [empty_query; "x"; "- -"]%string)).
    repeat constructor.
  - apply (proj1 (proj2 (C6_no_terms_raises ["cats and dogs"; "?!"; "dogs"]%string))).
    vm_compute. discriminate.
  - apply (proj2 (proj2 (C6_no_terms_raises ["cats and dogs"; "?!"; "dogs"]%string))
             ["cats and dogs"; "?!"]%string "dogs"%string).
    + reflexivity.
    + discriminate.
    + vm_compute. discriminate.
Defined.

(** ** The order of the results *)

(** C7: for a positive count, the scores of the documents in the result of
    [find_recommendations], read in the order of the result, never increase;
    when the similarities cannot be computed there is no result. *)
Theorem C7_scores_non_increasing (movies : DataFrame) (query : string) (n : Z) :
  (0 < n)%Z ->
  match calculate_cos_similarities (form_corpus movies query) with
  | Ok cos_sims =>
      exists rows,
        find_recommendations argsort movies query n = Ok rows /\
        Forall2 (fun i m => nth_error movies i = Some m) (top_idxs argsort cos_sims n) rows /\
        StronglySorted Rge (map (score cos_sims) (top_idxs argsort cos_sims n))
  | Raise e => find_recommendations argsort movies query n = Raise e
  end.
Proof.
  intros _.
  destruct (calculate_cos_similarities (form_corpus movies query))
    as [cos_sims | e] eqn:Hc.
  - destruct (@find_recommendations_ok movies query n _ Hc) as [_ [rows [Hr Hsel]]].
    exists rows. repeat split; [exact Hr | exact Hsel |].
    apply top_idxs_descending.
  - apply find_recommendations_raise. exact Hc.
Qed.

(** ** Unit vectors *)

(** C8: when the corpus has a term, the vectorizer returns one vector for
    each entry; the vector of an entry that has a term has Euclidean norm 1,
    and the vector of an entry without terms is the all-zero vector. *)
Theorem C8_unit_norm (corpus : list string) :
  vocabulary corpus <> [] ->
  exists M,
    fit_transform corpus = Ok M /\
    Forall2
      (fun d row =>
         (analyze d <> [] -> l2_norm row = 1%R) /\
         (analyze d = [] -> row = repeat 0%R (length (vocabulary corpus))))
      corpus M.
Proof.
  intros Hv. exists (map (weights corpus) corpus). split.
  - rewrite fit_transform_spec.
    destruct (vocabulary corpus); [congruence | reflexivity].
  - assert (H : forall l, incl l corpus ->
                  Forall2
                    (fun d row =>
                       (analyze d <> [] -> l2_norm row = 1%R) /\
                       (analyze d = [] ->
                        row = repeat 0%R (length (vocabulary corpus))))
                    l (map (weights corpus) l)).
    { induction l as [| d l IH]; intros Hincl; simpl; constructor.
      - split.
        + apply weights_unit. apply Hincl. left. reflexivity.
        + apply weights_no_terms.
      - apply IH. intros x Hx. apply Hincl. right. exact Hx. }
    apply H. apply incl_refl.
Qed.

Lemma C8_unit_norm_witness :
  exists M,
    fit_transform (form_corpus sample_movies "?!") = Ok M /\
    Forall2
      (fun d row =>
         (analyze d <> [] -> l2_norm row = 1%R) /\
         (analyze d = [] ->
          row = repeat 0%R
                  (length (vocabulary (form_corpus sample_movies "?!")))))
      (form_corpus sample_movies "?!") M.
Proof.
  apply (@C8_unit_norm (form_corpus sample_movies "?!")).
  vm_compute. discriminate.
Defined.

(** ** Inverse document frequency *)

(** C9: the inverse document frequency that the vectorizer uses.  For the
    term [t] of column [j] of the vocabulary of a corpus of [N] entries, the
    inverse document frequency is [ln ((1 + N) / (1 + df t)) + 1], where
    [df t] counts the entries that contain [t]; in the raw weights of the
    vectorizer, the weight of [t] in the entry [d] of row [i] is the count
    of [t] in [d] times that value, and the row that [fit_transform]
    returns is that raw row, normalised; and the value is not negative. *)
Theorem C9_idf_formula (corpus : list string) (i j : nat) (d t : string) :
  nth_error corpus i = Some d ->
  nth_error (vocabulary corpus) j = Some t ->
  nth_error (idf_vector corpus) j
    = Some (ln ((1 + INR (length corpus)) / (1 + INR (df corpus t))) + 1)%R /\
  (exists raw,
     nth_error (tfidf_raw corpus) i = Some raw /\
     nth_error raw j
     = Some (INR (term_count d t) *
             (ln ((1 + INR (length corpus)) / (1 + INR (df corpus t))) + 1))%R /\
     exists M,
       fit_transform corpus = Ok M /\
       nth_error M i = Some (normalize_row raw)) /\
  (0 <= ln ((1 + INR (length corpus)) / (1 + INR (df corpus t))) + 1)%R.
Proof.
  intros Hi Hj.
  assert (Hlt : j < length (vocabulary corpus)).
  { apply nth_error_Some. congruence. }
  assert (Hidf : nth_error (idf_vector corpus) j
                 = Some (ln ((1 + INR (length corpus)) / (1 + INR (df corpus t))) + 1)%R).
  { rewrite (idf_vector_nth_error corpus Hlt), (document_frequency_df corpus j Hj).
    unfold idf. rewrite !plus_INR. simpl INR.
    rewrite (Rplus_comm (INR (length corpus))), (Rplus_comm (INR (df corpus t))).
    reflexivity. }
  split; [exact Hidf |]. split.
  - set (raw := scale_row (map (term_count d) (vocabulary corpus)) (idf_vector corpus)).
    assert (Hraw : nth_error (tfidf_raw corpus) i = Some raw).
    { unfold tfidf_raw, count_matrix. rewrite map_map.
      exact (map_nth_error
               (fun d => scale_row (map (term_count d) (vocabulary corpus))
                                   (idf_vector corpus)) _ _ Hi). }
    exists raw. split; [exact Hraw |]. split.
    + apply scale_row_nth_error; [| exact Hidf].
      apply map_nth_error. exact Hj.
    + exists (map normalize_row (tfidf_raw corpus)). split.
      * unfold fit_transform.
        destruct (vocabulary corpus); [destruct j; discriminate | reflexivity].
      * apply map_nth_error. exact Hraw.
  - assert (H : (1 <= idf (length corpus) (df corpus t))%R).
    { apply idf_ge_1. unfold df. apply filter_length_le. }
    unfold idf in H. rewrite !plus_INR in H. simpl INR in H.
    rewrite (Rplus_comm (INR (length corpus))), (Rplus_comm (INR (df corpus t))) in H.
    lra.
Qed.

Lemma C9_idf_formula_witness :
  nth_error (idf_vector (form_corpus sample_movies "dogs playing")) 5
    = Some (ln ((1 + INR 4) / (1 + INR 3)) + 1)%R /\
  (exists raw,
     nth_error (tfidf_raw (form_corpus sample_movies "dogs playing")) 1 = Some raw /\
     nth_error raw 5
     = Some (INR 1 * (ln ((1 + INR 4) / (1 + INR 3)) + 1))%R /\
     exists M,
       fit_transform (form_corpus sample_movies "dogs playing") = Ok M /\
       nth_error M 1 = Some (normalize_row raw)) /\
  (0 <= ln ((1 + INR 4) / (1 + INR 3)) + 1)%R.
Proof.
  exact (@C9_idf_formula (form_corpus sample_movies "dogs playing") 1 5
           "dogs bark loudly" "dogs" eq_refl eq_refl).
Defined.

(** ** The query row *)

(** C10: the query is the last entry of the corpus, at the index that
    equals the number of documents; one score is computed for each
    document and none for the query; every index of the result is the index
    of a document, so that the query's index is not among them, and every
    row of the result is a row of the data frame. *)
Theorem C10_query_row_excluded (movies : DataFrame) (query : string) (n : Z) :
  nth_error (form_corpus movies query) (length movies) = Some query /\
  length (form_corpus movies query) = S (length movies) /\
  match calculate_cos_similarities (form_corpus movies query) with
  | Ok cos_sims =>
      cos_sims = similarities movies query /\
      length cos_sims = length movies /\
      Forall (fun i => i < length movies) (top_idxs argsort cos_sims n) /\
      ~ In (length movies) (top_idxs argsort cos_sims n) /\
      exists rows,
        find_recommendations argsort movies query n = Ok rows /\
        Forall2 (fun i m => nth_error movies i = Some m) (top_idxs argsort cos_sims n) rows /\
        Forall (fun m => In m movies) rows
  | Raise e => find_recommendations argsort movies query n = Raise e
  end.
Proof.
  split; [| split].
  - unfold form_corpus.
    rewrite nth_error_app2 by (rewrite length_map; lia).
    rewrite length_map, Nat.sub_diag. reflexivity.
  - unfold form_corpus. rewrite length_app, length_map. simpl. lia.
  - destruct (calculate_cos_similarities (form_corpus movies query))
      as [cos_sims | e] eqn:Hc.
    + destruct (@find_recommendations_ok movies query n _ Hc)
        as [Hlen [rows [Hr Hsel]]].
      assert (Hrange : Forall (fun i => i < length movies) (top_idxs argsort cos_sims n)).
      { rewrite Forall_forall. intros i Hi. rewrite <- Hlen.
        eapply top_idxs_in_range. exact Hi. }
      split; [| split; [exact Hlen | split; [exact Hrange | split]]].
      * rewrite calculate_cos_similarities_spec in Hc.
        destruct (vocabulary _); [discriminate |].
        destruct movies; [discriminate |]. congruence.
      * intros Hin. rewrite Forall_forall in Hrange.
        specialize (Hrange _ Hin). lia.
      * exists rows. repeat split; [exact Hr | exact Hsel |].
        clear - Hsel. induction Hsel as [| i m idxs rows Him _ IH]; constructor.
        -- eapply nth_error_In. exact Him.
        -- exact IH.
    + apply find_recommendations_raise. exact Hc.
Qed.

(** * Further properties of the ranking *)

Lemma StronglySorted_app_cross (A : Type) (R : A -> A -> Prop) (l1 l2 : list A) :
  StronglySorted R (l1 ++ l2) ->
  forall x y, In x l1 -> In y l2 -> R x y.
Proof.
  induction l1 as [| h l1 IH]; simpl; intros H x y Hx Hy; [destruct Hx |].
  apply StronglySorted_inv in H. destruct H as [Hs Hh].
  destruct Hx as [<- | Hx].
  - rewrite Forall_forall in Hh. apply Hh. apply in_or_app. right. exact Hy.
  - apply IH; assumption.
Qed.

Lemma top_idxs_outside_le (cos_sims : list R) (n : Z) (i j : nat) :
  In i (top_idxs argsort cos_sims n) ->
  j < length cos_sims ->
  ~ In j (top_idxs argsort cos_sims n) ->
  (score cos_sims j <= score cos_sims i)%R.
Proof.
  rewrite top_idxs_firstn. intros Hi Hj Hout.
  pose proof (ranked_sorted cos_sims) as Hs.
  rewrite <- (firstn_skipn (kept (length cos_sims) n) (ranked argsort cos_sims)) in Hs.
  assert (Hin : In j (ranked argsort cos_sims)).
  { apply (Permutation_in _ (Permutation_sym (ranked_perm cos_sims))).
    apply in_seq. lia. }
  rewrite <- (firstn_skipn (kept (length cos_sims) n) (ranked argsort cos_sims)) in Hin.
  apply in_app_or in Hin. destruct Hin as [Hin | Hin]; [contradiction |].
  exact (@StronglySorted_app_cross _ _ _ _ Hs i j Hi Hin).
Qed.

(** X2: the selected documents are the best ones: a document that is not in
    [top_idxs] scores no more than any document that is. *)
Theorem top_idxs_best (cos_sims : list R) (n : Z) (i j : nat) :
  In i (top_idxs argsort cos_sims n) ->
  j < length cos_sims ->
  ~ In j (top_idxs argsort cos_sims n) ->
  (score cos_sims j <= score cos_sims i)%R.
Proof.
  apply top_idxs_outside_le.
Qed.

(** For [0 < n <= m] the indices selected for [n] are the first [n] of
    those selected for [m]. *)
Lemma top_idxs_prefix (cos_sims : list R) (n m : Z) :
  (0 < n)%Z -> (n <= m)%Z ->
  top_idxs argsort cos_sims n = firstn (Z.to_nat n) (top_idxs argsort cos_sims m).
Proof.
  intros Hn Hm.
  rewrite !top_idxs_firstn, firstn_firstn, !kept_pos by lia.
  f_equal. lia.
Qed.

(** X3: asking for fewer recommendations gives a prefix of the longer
    answer: when the call with count [m] returns [rows] and [0 < n <= m],
    the call with count [n] returns the first [n] of them. *)
Theorem find_recommendations_prefix (movies : DataFrame) (query : string)
        (n m : Z) (rows : list movie) :
  (0 < n)%Z -> (n <= m)%Z ->
  find_recommendations argsort movies query m = Ok rows ->
  find_recommendations argsort movies query n = Ok (firstn (Z.to_nat n) rows).
Proof.
  intros Hn Hm Hrows.
  destruct (calculate_cos_similarities (form_corpus movies query))
    as [cos_sims | e] eqn:Hc.
  - destruct (@find_recommendations_ok movies query m _ Hc) as [Hlen [rm [Hrm Hsm]]].
    destruct (@find_recommendations_ok movies query n _ Hc) as [_ [rn [Hrn Hsn]]].
    rewrite Hrm in Hrows. injection Hrows as <-.
    rewrite Hrn. f_equal.
    destruct movies as [| d movies].
    + rewrite calculate_cos_similarities_spec in Hc.
      destruct (vocabulary _); discriminate.
    + rewrite (@selected_rows _ _ _ d Hsn), (@selected_rows _ _ _ d Hsm).
      rewrite (top_idxs_prefix cos_sims Hn Hm), firstn_map. reflexivity.
  - rewrite (find_recommendations_raise movies query m Hc) in Hrows. discriminate.
Qed.

(** X4: the outcomes of [find_recommendations].  It raises the
    empty-vocabulary error exactly when no plot and not the query has a
    term; it raises the missing-samples error exactly when there is no
    document and the query has a term; it never raises an index error; and
    it returns rows in every other case. *)
Theorem find_recommendations_outcome (movies : DataFrame) (query : string) (n : Z) :
  (find_recommendations argsort movies query n = Raise EmptyVocabulary <->
   Forall (fun d => analyze d = []) (form_corpus movies query)) /\
  (find_recommendations argsort movies query n = Raise NoSamples <->
   movies = [] /\ analyze query <> []) /\
  find_recommendations argsort movies query n <> Raise IndexError /\
  ((exists rows, find_recommendations argsort movies query n = Ok rows) <->
   movies <> [] /\ ~ Forall (fun d => analyze d = []) (form_corpus movies query)).
Proof.
  pose proof (calculate_cos_similarities_spec movies query) as Hc.
  pose proof (vocabulary_nil (form_corpus movies query)) as Hnil.
  destruct (vocabulary (form_corpus movies query)) as [| t v] eqn:Ev.
  - rewrite (find_recommendations_raise movies query n Hc).
    assert (Hall := proj1 Hnil eq_refl).
    split; [| split; [| split]].
    + split; [intros _; exact Hall | reflexivity].
    + split; [discriminate |].
      intros [_ Hq]. exfalso. apply Hq.
      rewrite Forall_forall in Hall. apply Hall.
      unfold form_corpus. apply in_or_app. right. left. reflexivity.
    + discriminate.
    + split; [intros [rows Hr]; discriminate | intros [_ H]; contradiction].
  - assert (Hsome : ~ Forall (fun d => analyze d = []) (form_corpus movies query)).
    { intros H. apply Hnil in H. discriminate. }
    destruct movies as [| m movies].
    + rewrite (find_recommendations_raise [] query n Hc).
      assert (Hq : analyze query <> []).
      { intros Hq. apply Hsome. constructor; [exact Hq | constructor]. }
      split; [| split; [| split]].
      * split; [discriminate | intros H; contradiction].
      * split; [intros _; split; [reflexivity | exact Hq] | reflexivity].
      * discriminate.
      * split; [intros [rows Hr]; discriminate | intros [H _]; congruence].
    + destruct (@find_recommendations_ok (m :: movies) query n _ Hc)
        as [_ [rows [Hr _]]].
      rewrite Hr.
      split; [| split; [| split]].
      * split; [discriminate | intros H; contradiction].
      * split; [discriminate | intros [H _]; discriminate].
      * discriminate.
      * split; [intros _; split; [discriminate | exact Hsome] |].
        intros _. exists rows. reflexivity.
Qed.

(** X5: the number of rows for every count, and where they come from.  When
    there is a document and a term, [find_recommendations] returns
    [min n size] rows for a positive [n], all the rows for [n = 0] and
    [size - |n|] rows (none when that is negative) for a negative [n];
    the rows are taken at pairwise distinct positions of the data frame. *)
Theorem find_recommendations_count (movies : DataFrame) (query : string) (n : Z) :
  movies <> [] ->
  vocabulary (form_corpus movies query) <> [] ->
  exists rows idxs,
    find_recommendations argsort movies query n = Ok rows /\
    NoDup idxs /\
    Forall2 (fun i m => nth_error movies i = Some m) idxs rows /\
    length rows =
    match n with
    | Zpos _ => Nat.min (Z.to_nat n) (length movies)
    | Z0 => length movies
    | Zneg _ => length movies - Z.to_nat (- n)
    end.
Proof.
  intros Hm Hv.
  pose proof (calculate_cos_similarities_spec movies query) as Hc.
  destruct (vocabulary (form_corpus movies query)) as [| t v]; [congruence |].
  destruct movies as [| m movies]; [congruence |].
  destruct (@find_recommendations_ok (m :: movies) query n _ Hc)
    as [Hlen [rows [Hr Hsel]]].
  exists rows, (top_idxs argsort (similarities (m :: movies) query) n).
  split; [exact Hr |]. split; [apply top_idxs_NoDup |]. split; [exact Hsel |].
  rewrite <- (Forall2_length Hsel), top_idxs_length, Hlen.
  destruct n as [| k | k].
  - apply kept_zero.
  - apply kept_pos. lia.
  - apply kept_neg. lia.
Qed.

(** * Further properties of the vectors and the similarities *)

Open Scope R_scope.

Lemma le_sqrt (t s : R) : t * t <= s -> t <= sqrt s.
Proof.
  intros H. destruct (Rle_lt_dec t 0) as [Ht | Ht].
  - pose proof (sqrt_pos s). lra.
  - rewrite <- (sqrt_square t) by lra. apply sqrt_le_1_alt. exact H.
Qed.

Lemma l2_norm_nonneg (v : list R) : 0 <= l2_norm v.
Proof.
  apply sqrt_pos.
Qed.

Lemma l2_norm_square (v : list R) : l2_norm v * l2_norm v = sum_squares v.
Proof.
  apply sqrt_def, sum_squares_nonneg.
Qed.

(** Cauchy and Schwarz: the product of two vectors is at most the product of
    their norms. *)
Lemma dot_le_norms (u v : list R) : dot u v <= l2_norm u * l2_norm v.
Proof.
  assert (Hbase : forall a b : list R, 0 <= l2_norm a * l2_norm b).
  { intros a b. pose proof (l2_norm_nonneg a). pose proof (l2_norm_nonneg b). nra. }
  revert v. induction u as [| x u IH]; intros [| y v]; simpl dot;
    try apply Hbase.
  specialize (IH v).
  pose proof (l2_norm_nonneg u) as Hu. pose proof (l2_norm_nonneg v) as Hv.
  pose proof (l2_norm_square u) as Hu2. pose proof (l2_norm_square v) as Hv2.
  unfold l2_norm at 1 2. simpl sum_squares.
  rewrite <- sqrt_mult
    by (pose proof (sum_squares_nonneg u); pose proof (sum_squares_nonneg v); nra).
  apply Rle_trans with (x * y + l2_norm u * l2_norm v); [lra |].
  apply le_sqrt.
  rewrite <- Hu2, <- Hv2.
  pose proof (Rle_0_sqr (x * l2_norm v - y * l2_norm u)) as H.
  unfold Rsqr in H.
  assert (Heq : (x * x + l2_norm u * l2_norm u) * (y * y + l2_norm v * l2_norm v)
                - (x * y + l2_norm u * l2_norm v) * (x * y + l2_norm u * l2_norm v)
                = (x * l2_norm v - y * l2_norm u) * (x * l2_norm v - y * l2_norm u))
    by ring.
  lra.
Qed.

Lemma dot_nonneg (u v : list R) :
  Forall (fun x => 0 <= x) u -> Forall (fun x => 0 <= x) v -> 0 <= dot u v.
Proof.
  intros Hu. revert v.
  induction Hu as [| x u Hx Hu IH]; intros v Hv; simpl; [lra |].
  destruct Hv as [| y v Hy Hv]; [lra |].
  specialize (IH v Hv). nra.
Qed.

Lemma dot_self (v : list R) : dot v v = sum_squares v.
Proof.
  induction v as [| x v IH]; simpl; [reflexivity |].
  rewrite IH. reflexivity.
Qed.

Lemma dot_scale (u v : list R) (k1 k2 : R) :
  dot (map (fun x => x * k1) u) (map (fun x => x * k2) v) = k1 * k2 * dot u v.
Proof.
  revert v. induction u as [| x u IH]; intros [| y v]; simpl; try lra.
  rewrite IH. lra.
Qed.

(** Normalising multiplies a row by a constant that is not negative. *)
Lemma normalize_row_scale (v : list R) :
  exists k, 0 <= k /\ normalize_row v = map (fun x => x * k) v.
Proof.
  unfold normalize_row.
  destruct (Req_dec_T (l2_norm v) 0) as [E | E].
  - exists 1. split; [lra |].
    rewrite <- (map_id v) at 1. apply map_ext. intros x. lra.
  - exists (/ l2_norm v). split.
    + pose proof (l2_norm_nonneg v).
      apply Rlt_le, Rinv_0_lt_compat. lra.
    + apply map_ext. intros x. reflexivity.
Qed.

Lemma l2_norm_normalize_row (v : list R) :
  l2_norm (normalize_row v) = 0 \/ l2_norm (normalize_row v) = 1.
Proof.
  destruct (Req_dec_T (l2_norm v) 0) as [E | E].
  - left. unfold normalize_row.
    destruct (Req_dec_T (l2_norm v) 0); [exact E | contradiction].
  - right. apply normalize_row_unit.
    pose proof (sum_squares_nonneg v) as H.
    destruct (Req_dec_T (sum_squares v) 0) as [E0 | E0]; [| lra].
    exfalso. apply E. unfold l2_norm. rewrite E0. apply sqrt_0.
Qed.

(** Normalising twice is normalising once. *)
Lemma normalize_row_idem (v : list R) :
  normalize_row (normalize_row v) = normalize_row v.
Proof.
  destruct (l2_norm_normalize_row v) as [E | E].
  - unfold normalize_row at 1.
    destruct (Req_dec_T (l2_norm (normalize_row v)) 0); [reflexivity | contradiction].
  - unfold normalize_row at 1.
    destruct (Req_dec_T (l2_norm (normalize_row v)) 0) as [E0 | E0]; [lra |].
    rewrite E. rewrite <- (map_id (normalize_row v)) at 2.
    apply map_ext. intros x. apply Rdiv_1_r.
Qed.

Lemma idf_vector_ge_1 (corpus : list string) :
  Forall (fun w => 1 <= w) (idf_vector corpus).
Proof.
  unfold idf_vector. rewrite Forall_forall. intros w Hw.
  apply in_map_iff in Hw. destruct Hw as [j [<- _]].
  apply idf_ge_1. rewrite <- (count_matrix_length corpus).
  apply document_frequency_le.
Qed.

Lemma scale_row_nonneg (counts : list nat) (idfs : list R) :
  Forall (fun w => 1 <= w) idfs ->
  Forall (fun x => 0 <= x) (scale_row counts idfs).
Proof.
  intros H. revert counts.
  induction H as [| w idfs Hw Hall IH]; intros [| c counts]; simpl;
    constructor.
  - pose proof (pos_INR c). nra.
  - apply IH.
Qed.

Lemma weights_nonneg (corpus : list string) (d : string) :
  Forall (fun x => 0 <= x) (weights corpus d).
Proof.
  unfold weights.
  destruct (normalize_row_scale
              (scale_row (map (term_count d) (vocabulary corpus))
                         (idf_vector corpus))) as [k [Hk ->]].
  pose proof (scale_row_nonneg (map (term_count d) (vocabulary corpus))
                               (idf_vector_ge_1 corpus)) as H.
  rewrite Forall_forall in *. intros x Hx.
  apply in_map_iff in Hx. destruct Hx as [y [<- Hy]].
  specialize (H y Hy). nra.
Qed.

Lemma weights_normalized (corpus : list string) (d : string) :
  normalize_row (weights corpus d) = weights corpus d.
Proof.
  apply normalize_row_idem.
Qed.

Lemma similarity_dot (corpus : list string) (d q : string) :
  similarity corpus d q = dot (weights corpus d) (weights corpus q).
Proof.
  unfold similarity. rewrite !weights_normalized. reflexivity.
Qed.

Lemma similarity_range (corpus : list string) (d q : string) :
  0 <= similarity corpus d q <= 1.
Proof.
  rewrite similarity_dot. split.
  - apply dot_nonneg; apply weights_nonneg.
  - eapply Rle_trans; [apply dot_le_norms |].
    pose proof (l2_norm_nonneg (weights corpus d)).
    pose proof (l2_norm_nonneg (weights corpus q)).
    assert (Hd : l2_norm (weights corpus d) <= 1).
    { unfold weights. destruct (l2_norm_normalize_row
        (scale_row (map (term_count d) (vocabulary corpus)) (idf_vector corpus)))
        as [E | E]; rewrite E; lra. }
    assert (Hq : l2_norm (weights corpus q) <= 1).
    { unfold weights. destruct (l2_norm_normalize_row
        (scale_row (map (term_count q) (vocabulary corpus)) (idf_vector corpus)))
        as [E | E]; rewrite E; lra. }
    nra.
Qed.

Close Scope R_scope.

(** ** Only the tokens matter *)

Lemma term_count_ext (d d' t : string) :
  analyze d = analyze d' -> term_count d t = term_count d' t.
Proof.
  intros H. unfold term_count. rewrite H. reflexivity.
Qed.

Lemma vocabulary_ext (c c' : list string) :
  map analyze c = map analyze c' -> vocabulary c = vocabulary c'.
Proof.
  intros H. unfold vocabulary. rewrite H. reflexivity.
Qed.

Lemma count_matrix_tokens (c : list string) :
  count_matrix c =
  map (fun toks => map (count_occ string_dec toks) (vocabulary c)) (map analyze c).
Proof.
  unfold count_matrix. rewrite map_map. reflexivity.
Qed.

Lemma idf_vector_ext (c c' : list string) :
  map analyze c = map analyze c' -> idf_vector c = idf_vector c'.
Proof.
  intros H. unfold idf_vector.
  rewrite !count_matrix_tokens, (vocabulary_ext c c' H), H.
  replace (length c) with (length c'); [reflexivity |].
  rewrite <- (length_map analyze c'), <- H. apply length_map.
Qed.

Lemma weights_ext (c c' : list string) (d d' : string) :
  map analyze c = map analyze c' -> analyze d = analyze d' ->
  weights c d = weights c' d'.
Proof.
  intros Hc Hd. unfold weights.
  rewrite (vocabulary_ext c c' Hc), (idf_vector_ext c c' Hc).
  do 2 f_equal. apply map_ext. intros t. apply term_count_ext. exact Hd.
Qed.

Lemma form_corpus_tokens (movies : DataFrame) (q q' : string) :
  analyze q = analyze q' ->
  map analyze (form_corpus movies q) = map analyze (form_corpus movies q').
Proof.
  intros H. unfold form_corpus. rewrite !map_app. simpl. rewrite H. reflexivity.
Qed.

Lemma calculate_cos_similarities_tokens (movies : DataFrame) (q q' : string) :
  analyze q = analyze q' ->
  calculate_cos_similarities (form_corpus movies q)
  = calculate_cos_similarities (form_corpus movies q').
Proof.
  intros H. pose proof (form_corpus_tokens movies q q' H) as Hc.
  rewrite !calculate_cos_similarities_spec, (vocabulary_ext _ _ Hc).
  destruct (vocabulary (form_corpus movies q')); [reflexivity |].
  destruct movies as [| m movies]; [reflexivity |].
  f_equal. unfold similarities. apply map_ext. intros x.
  unfold similarity.
  rewrite (@weights_ext _ _ (Plot x) (Plot x) Hc eq_refl).
  rewrite (@weights_ext _ _ q q' Hc H). reflexivity.
Qed.

(** ** Shared terms *)

Open Scope R_scope.

Lemma dot_scale_row_disjoint (f g : string -> nat) (V : list string) (I : list R) :
  (forall t, In t V -> f t = 0%nat \/ g t = 0%nat) ->
  dot (scale_row (map f V) I) (scale_row (map g V) I) = 0.
Proof.
  revert I. induction V as [| t V IH]; intros [| w I] H; simpl; try reflexivity.
  rewrite IH by (intros u Hu; apply H; right; exact Hu).
  destruct (H t (or_introl eq_refl)) as [E | E]; rewrite E; simpl; lra.
Qed.

Lemma dot_pos (u v : list R) (j : nat) (x y : R) :
  Forall (fun x => 0 <= x) u -> Forall (fun x => 0 <= x) v ->
  nth_error u j = Some x -> nth_error v j = Some y ->
  0 < x -> 0 < y -> 0 < dot u v.
Proof.
  intros Hu. revert v j.
  induction Hu as [| a u Ha Hu IH]; intros v j Hv Hx Hy Hxp Hyp.
  - destruct j; discriminate.
  - destruct Hv as [| b v Hb Hv]; [destruct j; discriminate |].
    simpl. destruct j as [| j]; simpl in Hx, Hy.
    + injection Hx as ->. injection Hy as ->.
      pose proof (@dot_nonneg _ _ Hu Hv). nra.
    + pose proof (IH v j Hv Hx Hy Hxp Hyp). nra.
Qed.

(** The weight of a term that the entry contains is positive. *)
Lemma weights_pos (corpus : list string) (d t : string) (j : nat) :
  nth_error (vocabulary corpus) j = Some t ->
  In t (analyze d) ->
  exists x, nth_error (weights corpus d) j = Some x /\ 0 < x.
Proof.
  intros Hj Ht.
  assert (Hlt : (j < length (vocabulary corpus))%nat).
  { apply nth_error_Some. congruence. }
  set (raw := scale_row (map (term_count d) (vocabulary corpus)) (idf_vector corpus)).
  set (r := INR (term_count d t) *
            idf (length corpus) (document_frequency (count_matrix corpus) j)).
  assert (Hraw : nth_error raw j = Some r).
  { apply scale_row_nth_error.
    - apply map_nth_error. exact Hj.
    - apply idf_vector_nth_error. exact Hlt. }
  assert (Hr : 1 <= r).
  { assert (Hc : 1 <= INR (term_count d t)).
    { change 1 with (INR 1). apply le_INR.
      unfold term_count. apply (count_occ_In string_dec) in Ht. lia. }
    assert (Hw : 1 <= idf (length corpus)
                       (document_frequency (count_matrix corpus) j)).
    { apply idf_ge_1. rewrite <- (count_matrix_length corpus).
      apply document_frequency_le. }
    unfold r. nra. }
  assert (Hss : 0 < sum_squares raw).
  { apply sum_squares_pos with r; [eapply nth_error_In; exact Hraw | lra]. }
  assert (Hn : 0 < l2_norm raw) by (apply sqrt_lt_R0; exact Hss).
  exists (r / l2_norm raw). split.
  - unfold weights. fold raw. unfold normalize_row.
    destruct (Req_dec_T (l2_norm raw) 0) as [E | E]; [lra |].
    exact (map_nth_error (fun x => x / l2_norm raw) _ _ Hraw).
  - apply Rdiv_lt_0_compat; lra.
Qed.

Lemma similarity_disjoint (corpus : list string) (d q : string) :
  (forall t, In t (analyze d) -> ~ In t (analyze q)) ->
  similarity corpus d q = 0.
Proof.
  intros H. unfold similarity. rewrite !weights_normalized. unfold weights.
  destruct (normalize_row_scale
              (scale_row (map (term_count d) (vocabulary corpus))
                         (idf_vector corpus))) as [k1 [_ ->]].
  destruct (normalize_row_scale
              (scale_row (map (term_count q) (vocabulary corpus))
                         (idf_vector corpus))) as [k2 [_ ->]].
  rewrite dot_scale, dot_scale_row_disjoint; [lra |].
  intros t _. unfold term_count.
  destruct (in_dec string_dec t (analyze d)) as [Hin | Hout].
  - right. apply count_occ_not_In. apply H. exact Hin.
  - left. apply count_occ_not_In. exact Hout.
Qed.

Lemma similarity_shared (corpus : list string) (d q t : string) :
  In t (vocabulary corpus) -> In t (analyze d) -> In t (analyze q) ->
  0 < similarity corpus d q.
Proof.
  intros Hv Hd Hq. rewrite similarity_dot.
  destruct (In_nth_error _ _ Hv) as [j Hj].
  destruct (@weights_pos corpus d t j Hj Hd) as [x [Hx Hxp]].
  destruct (@weights_pos corpus q t j Hj Hq) as [y [Hy Hyp]].
  apply (@dot_pos _ _ j x y (weights_nonneg corpus d) (weights_nonneg corpus q) Hx Hy Hxp Hyp).
Qed.

Lemma similarity_same_tokens (corpus : list string) (d q : string) :
  In q corpus -> analyze d = analyze q -> analyze q <> [] ->
  similarity corpus d q = 1.
Proof.
  intros Hin He Hne. rewrite similarity_dot.
  rewrite (@weights_ext corpus corpus d q eq_refl He), dot_self.
  rewrite <- l2_norm_square, (@weights_unit corpus q Hin Hne). lra.
Qed.

Close Scope R_scope.

(** ** The similarities that the notebook computes *)

Lemma calculate_cos_similarities_ok (movies : DataFrame) (query : string) :
  movies <> [] ->
  vocabulary (form_corpus movies query) <> [] ->
  calculate_cos_similarities (form_corpus movies query)
  = Ok (similarities movies query).
Proof.
  intros Hm Hv. rewrite calculate_cos_similarities_spec.
  destruct (vocabulary (form_corpus movies query)); [congruence |].
  destruct movies; [congruence | reflexivity].
Qed.

Lemma similarities_nth_error (movies : DataFrame) (query : string) (i : nat) (m : movie) :
  nth_error movies i = Some m ->
  nth_error (similarities movies query) i
  = Some (similarity (form_corpus movies query) (Plot m) query).
Proof.
  intros H. unfold similarities.
  exact (map_nth_error
           (fun m => similarity (form_corpus movies query) (Plot m) query) _ _ H).
Qed.

Lemma nth_error_nonempty (A : Type) (l : list A) (i : nat) (x : A) :
  nth_error l i = Some x -> l <> [].
Proof.
  intros H ->. destruct i; discriminate.
Qed.

(** X6: every similarity that [calculate_cos_similarities] returns lies
    between 0 and 1, and there is one for each document. *)
Theorem cos_similarities_range (movies : DataFrame) (query : string) :
  movies <> [] ->
  vocabulary (form_corpus movies query) <> [] ->
  exists cos_sims,
    calculate_cos_similarities (form_corpus movies query) = Ok cos_sims /\
    length cos_sims = length movies /\
    Forall (fun s => (0 <= s <= 1)%R) cos_sims.
Proof.
  intros Hm Hv. exists (similarities movies query).
  split; [apply calculate_cos_similarities_ok; assumption |].
  split; [apply similarities_length |].
  unfold similarities. rewrite Forall_forall. intros s Hs.
  apply in_map_iff in Hs. destruct Hs as [m [<- _]].
  apply similarity_range.
Qed.

Lemma cos_similarities_range_witness :
  exists cos_sims,
    calculate_cos_similarities (form_corpus sample_movies "dogs playing")
      = Ok cos_sims /\
    length cos_sims = 3 /\
    Forall (fun s => (0 <= s <= 1)%R) cos_sims.
Proof.
  apply (@cos_similarities_range sample_movies "dogs playing").
  - discriminate.
  - vm_compute. discriminate.
Defined.

(** X7: over the real numbers, that is, up to the rounding of binary64,
    the vectorizer's rows are already normalised, so that the cosine
    similarities are plain products: with [M] the matrix of
    [fit_transform], the result of [calculate_cos_similarities] is the
    product of each row of [M[:-1]] with the row [M[-1]]. *)
Theorem cos_similarities_are_dot_products (movies : DataFrame) (query : string) :
  movies <> [] ->
  vocabulary (form_corpus movies query) <> [] ->
  exists M qrow,
    fit_transform (form_corpus movies query) = Ok M /\
    Py.last_item M = Ok qrow /\
    length (Py.slice_to (-1) M) = length movies /\
    calculate_cos_similarities (form_corpus movies query)
    = Ok (map (fun row => dot row qrow) (Py.slice_to (-1) M)).
Proof.
  intros Hm Hv.
  set (corpus := form_corpus movies query).
  exists (map (weights corpus) corpus), (weights corpus query).
  split.
  { rewrite fit_transform_spec. unfold corpus.
    destruct (vocabulary (form_corpus movies query)); [congruence | reflexivity]. }
  assert (Hsplit : map (weights corpus) corpus
                   = map (weights corpus) (map Plot movies) ++ [weights corpus query]).
  { unfold corpus at 2. unfold form_corpus. rewrite map_app. reflexivity. }
  rewrite Hsplit, last_item_last, slice_to_last.
  split; [reflexivity |].
  split; [rewrite !length_map; reflexivity |].
  unfold corpus. rewrite (@calculate_cos_similarities_ok movies query Hm Hv).
  f_equal. unfold similarities. rewrite !map_map.
  apply map_ext. intros m. apply similarity_dot.
Qed.

Lemma cos_similarities_are_dot_products_witness :
  exists M qrow,
    fit_transform (form_corpus sample_movies "dogs playing") = Ok M /\
    Py.last_item M = Ok qrow /\
    length (Py.slice_to (-1) M) = 3 /\
    calculate_cos_similarities (form_corpus sample_movies "dogs playing")
    = Ok (map (fun row => dot row qrow) (Py.slice_to (-1) M)).
Proof.
  apply (@cos_similarities_are_dot_products sample_movies "dogs playing").
  - discriminate.
  - vm_compute. discriminate.
Defined.

(** X8: a document scores above 0 exactly when its plot shares a term with
    the query; otherwise it scores 0. *)
Theorem score_positive_iff_shared_term (movies : DataFrame) (query : string)
        (i : nat) (m : movie) :
  vocabulary (form_corpus movies query) <> [] ->
  nth_error movies i = Some m ->
  exists cos_sims s,
    calculate_cos_similarities (form_corpus movies query) = Ok cos_sims /\
    nth_error cos_sims i = Some s /\
    ((0 < s)%R <->
     exists t, In t (analyze (Plot m)) /\ In t (analyze query)) /\
    (s = 0%R <->
     forall t, In t (analyze (Plot m)) -> ~ In t (analyze query)).
Proof.
  intros Hv Hi.
  pose proof (@nth_error_nonempty _ _ _ _ Hi) as Hm.
  set (corpus := form_corpus movies query).
  exists (similarities movies query), (similarity corpus (Plot m) query).
  split; [apply calculate_cos_similarities_ok; assumption |].
  split; [apply similarities_nth_error; exact Hi |].
  assert (Hshared : forall t, In t (analyze (Plot m)) -> In t (analyze query) ->
                      (0 < similarity corpus (Plot m) query)%R).
  { intros t Hd Hq. apply similarity_shared with t; [| exact Hd | exact Hq].
    apply vocabulary_In. exists query. split; [| exact Hq].
    unfold corpus, form_corpus. apply in_or_app. right. left. reflexivity. }
  assert (Hdec : (exists t, In t (analyze (Plot m)) /\ In t (analyze query)) \/
                 (forall t, In t (analyze (Plot m)) -> ~ In t (analyze query))).
  { clear. induction (analyze (Plot m)) as [| u toks IH].
    - right. intros t [].
    - destruct (in_dec string_dec u (analyze query)) as [Hu | Hu].
      + left. exists u. split; [left; reflexivity | exact Hu].
      + destruct IH as [[t [Ht Hq]] | IH].
        * left. exists t. split; [right; exact Ht | exact Hq].
        * right. intros t [<- | Ht]; [exact Hu | apply IH; exact Ht]. }
  split; split.
  - intros Hpos. destruct Hdec as [H | H]; [exact H |].
    rewrite (@similarity_disjoint corpus _ _ H) in Hpos. lra.
  - intros [t [Hd Hq]]. apply (Hshared t Hd Hq).
  - intros Hz t Hd Hq. pose proof (Hshared t Hd Hq). lra.
  - intros H. apply similarity_disjoint. exact H.
Qed.

Lemma score_positive_iff_shared_term_witness :
  exists cos_sims s,
    calculate_cos_similarities (form_corpus sample_movies "dogs playing")
      = Ok cos_sims /\
    nth_error cos_sims 2 = Some s /\
    ((0 < s)%R <->
     exists t, In t (analyze (Plot movie_C)) /\ In t (analyze "dogs playing")) /\
    (s = 0%R <->
     forall t, In t (analyze (Plot movie_C)) -> ~ In t (analyze "dogs playing")).
Proof.
  apply (@score_positive_iff_shared_term sample_movies "dogs playing" 2 movie_C).
  - vm_compute. discriminate.
  - reflexivity.
Defined.

(** X9: over the real numbers, that is, up to the rounding of binary64, a
    document whose plot has the same tokens as the query, at least one,
    scores 1, the greatest similarity there is. *)
Theorem same_tokens_score_one (movies : DataFrame) (query : string)
        (i : nat) (m : movie) :
  nth_error movies i = Some m ->
  analyze (Plot m) = analyze query ->
  analyze query <> [] ->
  exists cos_sims,
    calculate_cos_similarities (form_corpus movies query) = Ok cos_sims /\
    nth_error cos_sims i = Some 1%R /\
    Forall (fun s => (s <= 1)%R) cos_sims.
Proof.
  intros Hi He Hne.
  pose proof (@nth_error_nonempty _ _ _ _ Hi) as Hm.
  assert (Hq : In query (form_corpus movies query)).
  { unfold form_corpus. apply in_or_app. right. left. reflexivity. }
  assert (Hv : vocabulary (form_corpus movies query) <> []).
  { intros Hv. apply vocabulary_nil in Hv. rewrite Forall_forall in Hv.
    apply Hne. apply Hv. exact Hq. }
  exists (similarities movies query).
  split; [apply calculate_cos_similarities_ok; assumption |].
  split.
  - rewrite (@similarities_nth_error movies query i m Hi).
    rewrite (@similarity_same_tokens _ _ _ Hq He Hne). reflexivity.
  - unfold similarities. rewrite Forall_forall. intros s Hs.
    apply in_map_iff in Hs. destruct Hs as [x [<- _]].
    apply similarity_range.
Qed.

Lemma same_tokens_score_one_witness :
  exists cos_sims,
    calculate_cos_similarities (form_corpus sample_movies "Dogs BARK, loudly!")
      = Ok cos_sims /\
    nth_error cos_sims 1 = Some 1%R /\
    Forall (fun s => (s <= 1)%R) cos_sims.
Proof.
  apply (@same_tokens_score_one sample_movies "Dogs BARK, loudly!" 1 movie_B).
  - reflexivity.
  - reflexivity.
  - vm_compute. discriminate.
Defined.

(** X10: the answer depends on the query only through its tokens: two
    queries with the same tokens (the same words up to letter case,
    punctuation and one-letter words) get the same recommendations. *)
Theorem find_recommendations_tokens_only (movies : DataFrame) (q q' : string) (n : Z) :
  analyze q = analyze q' ->
  find_recommendations argsort movies q n = find_recommendations argsort movies q' n.
Proof.
  intros H. unfold find_recommendations.
  rewrite (@calculate_cos_similarities_tokens movies q q' H). reflexivity.
Qed.

(** * Further properties of the text analysis *)

Lemma lower_char_not_upper (c : ascii) : is_upper (lower_char c) = false.
Proof.
  destruct c as [[] [] [] [] [] [] [] []]; reflexivity.
Qed.

Lemma lowercase_not_upper (s : string) :
  all_chars (fun c => negb (is_upper c)) (lowercase s) = true.
Proof.
  induction s as [| c s IH]; simpl; [reflexivity |].
  rewrite lower_char_not_upper, IH. reflexivity.
Qed.

Lemma all_chars_app (p : ascii -> bool) (a b : string) :
  all_chars p (a ++ b)%string = all_chars p a && all_chars p b.
Proof.
  induction a as [| c a IH]; simpl; [reflexivity |].
  rewrite IH. apply andb_assoc.
Qed.

Lemma emit_Forall (Q : string -> Prop) (cur : string) (rest : list string) :
  Forall Q rest -> (2 <= String.length cur -> Q cur) -> Forall Q (emit cur rest).
Proof.
  intros Hrest Hcur. unfold emit.
  destruct (Nat.leb_spec 2 (String.length cur)); [constructor; auto | exact Hrest].
Qed.

Lemma findall_long (s cur : string) :
  Forall (fun t => 2 <= String.length t) (findall cur s).
Proof.
  revert cur. induction s as [| c s IH]; intros cur; simpl.
  - apply emit_Forall; [constructor | auto].
  - destruct (is_word_char c); [apply IH |].
    apply emit_Forall; [apply IH | auto].
Qed.

Lemma findall_all_chars (p : ascii -> bool) (s cur : string) :
  all_chars p cur = true ->
  all_chars (fun c => negb (is_word_char c) || p c) s = true ->
  Forall (fun t => all_chars p t = true) (findall cur s).
Proof.
  revert cur. induction s as [| c s IH]; intros cur Hcur Hs; simpl.
  - apply emit_Forall; [constructor | auto].
  - simpl in Hs. apply andb_true_iff in Hs. destruct Hs as [Hc Hs].
    destruct (is_word_char c) eqn:E.
    + apply IH; [| exact Hs].
      rewrite all_chars_app, Hcur. simpl in *. rewrite Hc. reflexivity.
    + apply emit_Forall; [apply IH; [reflexivity | exact Hs] | auto].
Qed.

Lemma all_chars_weaken (p q : ascii -> bool) (s : string) :
  (forall c, p c = true -> q c = true) ->
  all_chars p s = true -> all_chars q s = true.
Proof.
  intros H. induction s as [| c s IH]; simpl; [reflexivity |].
  intros Hs. apply andb_true_iff in Hs. destruct Hs as [Hc Hs].
  rewrite (H c Hc), (IH Hs). reflexivity.
Qed.

(** X11: the tokens of an ASCII text.  Every token that the analyzer
    returns for a text of ASCII characters has at least two characters,
    consists of letters, digits and underscores only, and has no capital
    letter. *)
Theorem analyze_tokens (doc : string) :
  all_chars is_ascii doc = true ->
  Forall (fun t =>
            2 <= String.length t /\
            all_chars is_word_char t = true /\
            all_chars (fun c => negb (is_upper c)) t = true)
         (analyze doc).
Proof.
  intros _. unfold analyze.
  pose proof (findall_long (lowercase doc) EmptyString) as H1.
  assert (H2 : Forall (fun t => all_chars is_word_char t = true)
                      (findall EmptyString (lowercase doc))).
  { apply findall_all_chars; [reflexivity |].
    generalize (lowercase doc). intros s.
    induction s as [| c s IH]; simpl; [reflexivity |].
    rewrite IH. destruct (is_word_char c); reflexivity. }
  assert (H3 : Forall (fun t => all_chars (fun c => negb (is_upper c)) t = true)
                      (findall EmptyString (lowercase doc))).
  { apply findall_all_chars; [reflexivity |].
    apply all_chars_weaken with (fun c => negb (is_upper c));
      [| apply lowercase_not_upper].
    intros c Hc. rewrite Hc. apply orb_true_r. }
  rewrite Forall_forall in *. intros t Ht. auto.
Qed.

Lemma analyze_tokens_witness :
  Forall (fun t =>
            2 <= String.length t /\
            all_chars is_word_char t = true /\
            all_chars (fun c => negb (is_upper c)) t = true)
         (analyze "Cats and DOGS play, I a b_c x9!").
Proof.
  apply (@analyze_tokens "Cats and DOGS play, I a b_c x9!").
  reflexivity.
Defined.

(** ** The vocabulary *)

Lemma insert_term_perm (t : string) (l : list string) :
  Permutation (insert_term t l) (t :: l).
Proof.
  induction l as [| u l IH]; simpl; [apply Permutation_refl |].
  destruct (String.leb t u); [apply Permutation_refl |].
  rewrite IH. apply perm_swap.
Qed.

Lemma sort_terms_perm (l : list string) : Permutation (sort_terms l) l.
Proof.
  induction l as [| t l IH]; simpl; [apply Permutation_refl |].
  rewrite insert_term_perm. apply perm_skip. exact IH.
Qed.

Lemma insert_term_HdRel (u t : string) (l : list string) :
  HdRel (fun x y => String.leb x y = true) u l ->
  String.leb u t = true ->
  HdRel (fun x y => String.leb x y = true) u (insert_term t l).
Proof.
  intros Hl Hut. destruct l as [| v l]; simpl; [constructor; exact Hut |].
  destruct (String.leb t v); constructor; [exact Hut |].
  apply HdRel_inv in Hl. exact Hl.
Qed.

Lemma insert_term_sorted (t : string) (l : list string) :
  Sorted (fun x y => String.leb x y = true) l ->
  Sorted (fun x y => String.leb x y = true) (insert_term t l).
Proof.
  induction 1 as [| u l Hs IH Hu]; simpl.
  - constructor; constructor.
  - destruct (String.leb t u) eqn:E.
    + constructor; [constructor; assumption | constructor; exact E].
    + constructor; [exact IH |].
      apply insert_term_HdRel; [exact Hu |].
      destruct (String.leb_total t u) as [H | H]; [congruence | exact H].
Qed.

(** X12: the vocabulary lists every term of every entry exactly once, in
    ascending order. *)
Theorem vocabulary_sorted_distinct (corpus : list string) :
  NoDup (vocabulary corpus) /\
  Sorted (fun t u => String.leb t u = true) (vocabulary corpus) /\
  forall t, In t (vocabulary corpus) <-> exists d, In d corpus /\ In t (analyze d).
Proof.
  split; [| split].
  - unfold vocabulary.
    apply (Permutation_NoDup (Permutation_sym (sort_terms_perm _))).
    apply NoDup_nodup.
  - unfold vocabulary.
    generalize (nodup string_dec (concat (map analyze corpus))). intros l.
    induction l as [| t l IH]; simpl; [constructor |].
    apply insert_term_sorted. exact IH.
  - apply vocabulary_In.
Qed.



(** ** Rare and frequent terms *)

Open Scope R_scope.

Lemma ln_le (x y : R) : 0 < x -> x <= y -> ln x <= ln y.
Proof.
  intros Hx [Hlt | ->]; [| lra].
  apply Rlt_le, ln_increasing; assumption.
Qed.

Lemma idf_antitone (n df1 df2 : nat) :
  (df1 <= df2)%nat -> idf n df2 <= idf n df1.
Proof.
  intros Hle. unfold idf.
  assert (H1 : 0 < INR (df1 + 1)) by (apply lt_0_INR; lia).
  assert (H2 : 0 < INR (df2 + 1)) by (apply lt_0_INR; lia).
  assert (Hn : 0 < INR (n + 1)) by (apply lt_0_INR; lia).
  assert (Hd : INR (df1 + 1) <= INR (df2 + 1)) by (apply le_INR; lia).
  apply Rplus_le_compat_r. apply ln_le.
  - apply Rdiv_lt_0_compat; assumption.
  - unfold Rdiv. apply Rmult_le_compat_l; [lra |].
    apply Rinv_le_contravar; assumption.
Qed.

Close Scope R_scope.

Lemma df_bounds (corpus : list string) (t : string) :
  In t (vocabulary corpus) -> 1 <= df corpus t <= length corpus.
Proof.
  intros Ht. split; [| apply filter_length_le].
  apply vocabulary_In in Ht. destruct Ht as [d [Hd Hin]].
  assert (H : In d (filter (contains_term t) corpus)).
  { apply filter_In. split; [exact Hd |].
    unfold contains_term.
    destruct (in_dec string_dec t (analyze d)); [reflexivity | contradiction]. }
  unfold df. destruct (filter (contains_term t) corpus); [destruct H | simpl; lia].
Qed.

(** X14: rarer terms weigh more.  Every term of the vocabulary occurs in at
    least one entry and at most all of them; of two terms the one that
    occurs in fewer entries has the greater inverse document frequency, or
    the same; and no inverse document frequency is below 1. *)
Theorem idf_rarer_terms_weigh_more (corpus : list string) (j k : nat) (t u : string) :
  nth_error (vocabulary corpus) j = Some t ->
  nth_error (vocabulary corpus) k = Some u ->
  df corpus t <= df corpus u ->
  1 <= df corpus t /\ df corpus u <= length corpus /\
  exists wt wu,
    nth_error (idf_vector corpus) j = Some wt /\
    nth_error (idf_vector corpus) k = Some wu /\
    (1 <= wu <= wt)%R.
Proof.
  intros Hj Hk Hle.
  assert (Hjl : j < length (vocabulary corpus)) by (apply nth_error_Some; congruence).
  assert (Hkl : k < length (vocabulary corpus)) by (apply nth_error_Some; congruence).
  pose proof (df_bounds corpus t (nth_error_In _ _ Hj)) as [Ht1 _].
  pose proof (df_bounds corpus u (nth_error_In _ _ Hk)) as [_ Hu2].
  split; [exact Ht1 |]. split; [exact Hu2 |].
  exists (idf (length corpus) (df corpus t)), (idf (length corpus) (df corpus u)).
  rewrite (idf_vector_nth_error corpus Hjl), (idf_vector_nth_error corpus Hkl).
  rewrite (document_frequency_df corpus j Hj), (document_frequency_df corpus k Hk).
  repeat split.
  - apply idf_ge_1. exact Hu2.
  - apply idf_antitone. exact Hle.
Qed.

Lemma idf_rarer_terms_weigh_more_witness :
  exists wt wu,
    nth_error (idf_vector (form_corpus sample_movies "dogs playing")) 2 = Some wt /\
    nth_error (idf_vector (form_corpus sample_movies "dogs playing")) 5 = Some wu /\
    (1 <= wu <= wt)%R.
Proof.
  apply (@idf_rarer_terms_weigh_more
           (form_corpus sample_movies "dogs playing") 2 5 "bark" "dogs").
  - reflexivity.
  - reflexivity.
  - vm_compute. repeat constructor.
Defined.

(** * The HTML text of [display_movies] *)

Lemma append_nil_r (s : string) : (s ++ EmptyString)%string = s.
Proof.
  induction s as [| c s IH]; simpl; [reflexivity | rewrite IH; reflexivity].
Qed.

Lemma append_assoc (a b c : string) :
  ((a ++ b) ++ c)%string = (a ++ (b ++ c))%string.
Proof.
  induction a as [| x a IH]; simpl; [reflexivity | rewrite IH; reflexivity].
Qed.

Lemma length_append (a b : string) :
  String.length (a ++ b)%string = String.length a + String.length b.
Proof.
  induction a as [| x a IH]; simpl; [reflexivity | rewrite IH; reflexivity].
Qed.

Lemma concat_empty_cons (x : string) (l : list string) :
  String.concat EmptyString (x :: l) = (x ++ String.concat EmptyString l)%string.
Proof.
  destruct l as [| y l]; simpl; [rewrite append_nil_r |]; reflexivity.
Qed.


Lemma display_loop (rows : list movie) (html_content : string) :
  fold_left (fun html_content row => (html_content ++ movie_html row)%string)
            rows html_content
  = (html_content ++ String.concat EmptyString (map movie_html rows))%string.
Proof.
  revert html_content. induction rows as [| m rows IH]; intros html_content.
  - simpl. rewrite append_nil_r. reflexivity.
  - cbn [fold_left map]. rewrite IH, concat_empty_cons, append_assoc. reflexivity.
Qed.


Lemma movie_html_length (m : movie) :
  String.length (movie_html m)
  = 149 + String.length (Title m) + String.length (Plot m).
Proof.
  unfold movie_html. rewrite !length_append. simpl. lia.
Qed.

(** X16: the size of the text of [display_movies]: 485 characters for the
    style sheet and the heading, and for each row 149 characters of markup
    and the characters of its title and of its plot; nothing is escaped and
    nothing is cut. *)
Theorem display_movies_length (rows : list movie) :
  String.length (display_movies rows)
  = 485 + list_sum (map (fun m => 149 + String.length (Title m)
                                  + String.length (Plot m)) rows).
Proof.
  unfold display_movies. rewrite display_loop, length_append.
  change (String.length (html_style ++ html_heading)) with 485.
  f_equal.
  induction rows as [| m rows IH]; [reflexivity |].
  cbn [map list_sum]. rewrite concat_empty_cons, length_append, IH, movie_html_length.
  reflexivity.
Qed.

(** * Documents that share no term with the query *)

Lemma score_similarities (movies : DataFrame) (query : string) (i : nat) (m : movie) :
  nth_error movies i = Some m ->
  score (similarities movies query) i
  = similarity (form_corpus movies query) (Plot m) query.
Proof.
  intros H. unfold score. apply nth_error_nth.
  apply similarities_nth_error. exact H.
Qed.

Lemma unrelated_after_related (movies : DataFrame) (query : string) (n : Z)
        (i j : nat) (mi mj : movie) :
  nth_error movies i = Some mi ->
  nth_error movies j = Some mj ->
  (exists t, In t (analyze (Plot mi)) /\ In t (analyze query)) ->
  (forall t, In t (analyze (Plot mj)) -> ~ In t (analyze query)) ->
  exists cos_sims,
    calculate_cos_similarities (form_corpus movies query) = Ok cos_sims /\
    (In j (top_idxs argsort cos_sims n) -> In i (top_idxs argsort cos_sims n)) /\
    (forall p q,
       nth_error (top_idxs argsort cos_sims n) p = Some j ->
       nth_error (top_idxs argsort cos_sims n) q = Some i ->
       q < p).
Proof.
  intros Hi Hj [t [Htd Htq]] Hnone.
  set (corpus := form_corpus movies query).
  assert (Hq : In query corpus).
  { unfold corpus, form_corpus. apply in_or_app. right. left. reflexivity. }
  assert (Hvt : In t (vocabulary corpus)) by (apply vocabulary_In; eauto).
  assert (Hv : vocabulary corpus <> []) by (intros E; rewrite E in Hvt; destruct Hvt).
  pose proof (@nth_error_nonempty _ _ _ _ Hi) as Hm.
  exists (similarities movies query).
  split; [apply calculate_cos_similarities_ok; assumption |].
  assert (Hsi : (0 < score (similarities movies query) i)%R).
  { rewrite (@score_similarities movies query i mi Hi).
    apply similarity_shared with t; assumption. }
  assert (Hsj : score (similarities movies query) j = 0%R).
  { rewrite (@score_similarities movies query j mj Hj).
    apply similarity_disjoint. exact Hnone. }
  assert (Hlen : i < length (similarities movies query)).
  { rewrite similarities_length. apply nth_error_Some. congruence. }
  split.
  - intros Hin.
    destruct (in_dec Nat.eq_dec i (top_idxs argsort (similarities movies query) n))
      as [H | H]; [exact H |].
    pose proof (@top_idxs_outside_le _ n j i Hin Hlen H). lra.
  - intros p q Hp Hpq.
    destruct (Nat.lt_trichotomy p q) as [Hlt | [Heq | Hgt]]; [| | exact Hgt].
    + pose proof (top_idxs_descending (similarities movies query) n) as Hd.
      apply (@StronglySorted_pair _ _ _ Hd p q
               (score (similarities movies query) j)
               (score (similarities movies query) i)) in Hlt.
      * lra.
      * apply map_nth_error. exact Hp.
      * apply map_nth_error. exact Hpq.
    + subst q. rewrite Hp in Hpq. injection Hpq as <-. lra.
Qed.

(** X17: documents that share no term with the query come last.  If the
    plot of document [i] shares a term with the query and the plot of
    document [j] shares none, then whenever [j] is among the selected
    indices, [i] is too, and [i] stands before [j]. *)
Theorem unrelated_documents_come_last (movies : DataFrame) (query : string) (n : Z)
        (i j : nat) (mi mj : movie) :
  nth_error movies i = Some mi ->
  nth_error movies j = Some mj ->
  (exists t, In t (analyze (Plot mi)) /\ In t (analyze query)) ->
  (forall t, In t (analyze (Plot mj)) -> ~ In t (analyze query)) ->
  exists cos_sims,
    calculate_cos_similarities (form_corpus movies query) = Ok cos_sims /\
    (In j (top_idxs argsort cos_sims n) -> In i (top_idxs argsort cos_sims n)) /\
    (forall p q,
       nth_error (top_idxs argsort cos_sims n) p = Some j ->
       nth_error (top_idxs argsort cos_sims n) q = Some i ->
       q < p).
Proof.
  apply unrelated_after_related.
Qed.

(** X18: enough related documents keep the unrelated ones out.  If at least
    [n] documents share a term with the query, then none of the [n]
    selected indices is a document that shares no term with it. *)
Theorem related_documents_fill_top (movies : DataFrame) (query : string) (n : Z)
        (related : list nat) (j : nat) (mj : movie) :
  (0 < n)%Z ->
  NoDup related ->
  (n <= Z.of_nat (length related))%Z ->
  Forall (fun i => exists mi t,
            nth_error movies i = Some mi /\
            In t (analyze (Plot mi)) /\ In t (analyze query)) related ->
  nth_error movies j = Some mj ->
  (forall t, In t (analyze (Plot mj)) -> ~ In t (analyze query)) ->
  exists cos_sims,
    calculate_cos_similarities (form_corpus movies query) = Ok cos_sims /\
    ~ In j (top_idxs argsort cos_sims n).
Proof.
  intros Hn Hnd Hlen Hrel Hj Hnone.
  destruct related as [| i0 related'] eqn:Er; [simpl in Hlen; lia |].
  rewrite <- Er in *.
  assert (Hi0 : In i0 related) by (rewrite Er; left; reflexivity).
  rewrite Forall_forall in Hrel.
  destruct (Hrel i0 Hi0) as [m0 [t0 [Hm0 [Ht0d Ht0q]]]].
  destruct (@unrelated_after_related movies query n i0 j m0 mj Hm0 Hj
              (ex_intro _ t0 (conj Ht0d Ht0q)) Hnone) as [cos_sims [Hc _]].
  exists cos_sims. split; [exact Hc |].
  intros Hin.
  assert (Hincl : incl (j :: related) (top_idxs argsort cos_sims n)).
  { intros x [<- | Hx]; [exact Hin |].
    destruct (Hrel x Hx) as [mx [tx [Hmx [Htd Htq]]]].
    destruct (@unrelated_after_related movies query n x j mx mj Hmx Hj
                (ex_intro _ tx (conj Htd Htq)) Hnone) as [cos' [Hc' [Himp _]]].
    rewrite Hc in Hc'. injection Hc' as <-. apply Himp. exact Hin. }
  assert (Hnd' : NoDup (j :: related)).
  { constructor; [| exact Hnd].
    intros Hjr. destruct (Hrel j Hjr) as [mx [tx [Hmx [Htd Htq]]]].
    rewrite Hj in Hmx. injection Hmx as <-. apply (Hnone tx Htd Htq). }
  pose proof (NoDup_incl_length Hnd' Hincl) as Hle.
  rewrite top_idxs_length, kept_pos in Hle by exact Hn.
  simpl in Hle. lia.
Qed.

(** * Row selection by position *)

(** X19: [iloc] with a list of positions returns the rows at these
    positions, in the order of the list and each with its position as the
    label, when every position is inside the data frame, and raises an
    index error as soon as one is not. *)
Theorem iloc_outcome (movies : DataFrame) (idxs : list nat) :
  (Forall (fun i => i < length movies) idxs ->
   exists rows,
     iloc movies idxs = Ok rows /\
     map fst rows = idxs /\
     Forall2 (fun i m => nth_error movies i = Some m) idxs (map snd rows)) /\
  (Exists (fun i => length movies <= i) idxs ->
   iloc movies idxs = Raise IndexError).
Proof.
  split; [apply iloc_in_range |].
  induction idxs as [| i idxs IH]; intros H.
  - inversion H.
  - simpl. destruct (nth_error movies i) as [m |] eqn:E; [| reflexivity].
    apply Exists_cons in H. destruct H as [H | H].
    + apply nth_error_None in H. congruence.
    + rewrite (IH H). reflexivity.
Qed.

Lemma iloc_outcome_witness :
  (exists rows,
     iloc sample_movies [2; 0] = Ok rows /\
     map fst rows = [2; 0] /\
     Forall2 (fun i m => nth_error sample_movies i = Some m) [2; 0] (map snd rows)) /\
  iloc sample_movies [1; 3] = Raise IndexError.
Proof.
  split.
  - apply (proj1 (iloc_outcome sample_movies [2; 0])).
    repeat constructor.
  - apply (proj2 (iloc_outcome sample_movies [1; 3])).
    apply Exists_cons_tl, Exists_cons_hd. simpl. lia.
Defined.
End Ranking.

(** * The notebook run with the insertion sort

    The statements above hold for every admissible sort.  Here the notebook
    is run on the sample data with one of them, the insertion sort. *)

(** Evaluation of the comparisons of concrete scores. *)
Ltac decide_Rltb :=
  repeat match goal with
         | |- context [Rltb ?x ?y] =>
             first [ rewrite (proj2 (Rltb_true x y)) by lra
                   | rewrite (proj2 (Rltb_false x y)) by lra ]
         end.

Lemma insertion_rev_example : insertion_rev Rltb 0%R [1; 3; 2; 3]%R = [3; 1; 2; 0].
Proof.
  unfold insertion_rev.
  cbn [length seq fold_left shift_in key nth]. decide_Rltb.
  cbn [shift_in key nth]. decide_Rltb.
  cbn [shift_in key nth]. decide_Rltb.
  cbn [shift_in key nth]. decide_Rltb.
  reflexivity.
Qed.

Lemma insertion_argsort_example : insertion_argsort [1; 3; 2; 3]%R = [0; 2; 1; 3].
Proof.
  unfold insertion_argsort, argsort_by. rewrite insertion_rev_example. reflexivity.
Qed.

Lemma top_idxs_example (n : Z) :
  top_idxs insertion_argsort [1; 3; 2; 3]%R n = firstn (kept 4 n) [3; 1; 2; 0].
Proof.
  rewrite (@top_idxs_firstn _ insertion_argsort_admissible).
  unfold ranked. rewrite insertion_argsort_example. reflexivity.
Qed.

(** With a query without terms every score is zero, the insertion sort
    leaves the indices in place, and the rows are the last ones of the data
    frame, the very last first. *)
Lemma insertion_no_terms (movies : DataFrame) (query : string) (n : Z) :
  analyze query = [] ->
  vocabulary (form_corpus movies query) <> [] ->
  top_idxs insertion_argsort (repeat 0%R (length movies)) n
    = firstn (kept (length movies) n) (rev (seq 0 (length movies))) /\
  find_recommendations insertion_argsort movies query n
    = Ok (firstn (kept (length movies) n) (rev movies)).
Proof.
  intros Hq Hv.
  pose proof (@no_terms_query_has_movies movies query Hq Hv) as Hm.
  pose proof (@calculate_cos_similarities_no_terms movies query Hq Hv) as Hc.
  assert (Ht : top_idxs insertion_argsort (repeat 0%R (length movies)) n
               = firstn (kept (length movies) n) (rev (seq 0 (length movies)))).
  { rewrite (@top_idxs_firstn _ insertion_argsort_admissible).
    unfold ranked. rewrite insertion_argsort_ties.
    - rewrite repeat_length. reflexivity.
    - intros i j. apply score_repeat. reflexivity. }
  split; [exact Ht |].
  destruct (@find_recommendations_ok _ insertion_argsort_admissible
              movies query n _ Hc) as [_ [rows [Hr Hsel]]].
  rewrite Hr. f_equal.
  destruct movies as [| d movies]; [congruence |].
  rewrite (@selected_rows _ _ _ d Hsel), Ht. apply tied_rows.
Qed.

Lemma sample_no_terms :
  calculate_cos_similarities (form_corpus sample_movies empty_query)
  = Ok (repeat 0%R 3).
Proof.
  apply (@calculate_cos_similarities_no_terms sample_movies empty_query eq_refl
           (sample_vocabulary empty_query)).
Qed.

Lemma sample_similarities (query : string) :
  calculate_cos_similarities (form_corpus sample_movies query)
  = Ok (similarities sample_movies query).
Proof.
  apply calculate_cos_similarities_ok; [discriminate | apply sample_vocabulary].
Qed.

(** ** Ties *)

(** C1, refuted as stated: with an empty query the three sample documents all
    score 0, and the result lists them as C, B, A: the document with the
    lower index comes later. *)
Lemma C1_lower_index_first_fails :
  find_recommendations insertion_argsort sample_movies empty_query 3
  = Ok [movie_C; movie_B; movie_A] /\
  ~ lower_index_first insertion_argsort sample_movies empty_query 3.
Proof.
  destruct (@insertion_no_terms sample_movies empty_query 3 eq_refl
              (sample_vocabulary empty_query)) as [Ht Hf].
  split; [exact Hf |].
  intros H.
  specialize (H (repeat 0%R 3) 0 1 2 1 sample_no_terms eq_refl).
  change (length sample_movies) with 3 in Ht.
  rewrite Ht in H.
  assert (Hlt : 2 < 1) by (apply H; [lia | reflexivity | reflexivity]).
  lia.
Qed.

(** The three sample documents tie at 0 under the empty query. *)
Lemma C1_ties_in_reverse_sort_order_witness :
  exists rows,
    find_recommendations insertion_argsort sample_movies empty_query 3 = Ok rows /\
    Forall2 (fun i m => nth_error sample_movies i = Some m)
            (top_idxs insertion_argsort (repeat 0%R 3) 3) rows /\
    forall p q i j,
      p < q ->
      nth_error (top_idxs insertion_argsort (repeat 0%R 3) 3) p = Some i ->
      nth_error (top_idxs insertion_argsort (repeat 0%R 3) 3) q = Some j ->
      (score (repeat 0%R 3) j <= score (repeat 0%R 3) i)%R /\
      exists p' q',
        nth_error (insertion_argsort (repeat 0%R 3)) p' = Some i /\
        nth_error (insertion_argsort (repeat 0%R 3)) q' = Some j /\
        q' < p'.
Proof.
  pose proof (@C1_ties_in_reverse_sort_order insertion_argsort
                insertion_argsort_admissible sample_movies empty_query 3) as H.
  rewrite sample_no_terms in H. exact H.
Defined.

(** ** A count that is not positive *)

(** C2, evaluated.  On the sample and the empty query, with every admissible
    sort a count of 0 returns three rows, one for every document, instead
    of none, and a count of -1 returns two; with the insertion sort these
    are C, B, A and C, B. *)
Theorem C2_nonpositive_count_returns_rows :
  (forall argsort, admissible argsort ->
   exists rows0 rows1,
     find_recommendations argsort sample_movies empty_query 0 = Ok rows0 /\
     length rows0 = 3 /\
     find_recommendations argsort sample_movies empty_query (-1) = Ok rows1 /\
     length rows1 = 2) /\
  find_recommendations insertion_argsort sample_movies empty_query 0
  = Ok [movie_C; movie_B; movie_A] /\
  find_recommendations insertion_argsort sample_movies empty_query (-1)
  = Ok [movie_C; movie_B].
Proof.
  split; [| split].
  - intros argsort Hsort.
    destruct (@find_recommendations_length argsort Hsort sample_movies empty_query
                0 _ sample_no_terms) as [rows0 [H0 L0]].
    destruct (@find_recommendations_length argsort Hsort sample_movies empty_query
                (-1) _ sample_no_terms) as [rows1 [H1 L1]].
    exists rows0, rows1. repeat split; assumption.
  - apply (@insertion_no_terms sample_movies empty_query 0 eq_refl
             (sample_vocabulary empty_query)).
  - apply (@insertion_no_terms sample_movies empty_query (-1) eq_refl
             (sample_vocabulary empty_query)).
Qed.

(** ** A query without terms *)

(** C3, refuted as stated: with an empty query and a count of 1 the result
    is the last document of the sample, not the first. *)
Lemma C3_first_rows_fails :
  find_recommendations insertion_argsort sample_movies empty_query 1
  = Ok [movie_C] /\
  find_recommendations insertion_argsort sample_movies empty_query 1
  <> Ok (firstn 1 sample_movies).
Proof.
  assert (H : find_recommendations insertion_argsort sample_movies empty_query 1
              = Ok [movie_C]).
  { apply (@insertion_no_terms sample_movies empty_query 1 eq_refl
             (sample_vocabulary empty_query)). }
  split; [exact H |].
  rewrite H. simpl. intros E. injection E as E. discriminate E.
Qed.

Lemma C3_no_terms_query_rows_witness :
  calculate_cos_similarities (form_corpus sample_movies "?!") = Ok [0%R; 0%R; 0%R] /\
  exists rows,
    find_recommendations insertion_argsort sample_movies "?!" 2 = Ok rows /\
    length rows = 2 /\
    NoDup (top_idxs insertion_argsort [0%R; 0%R; 0%R] 2) /\
    Forall2 (fun i m => nth_error sample_movies i = Some m)
            (top_idxs insertion_argsort [0%R; 0%R; 0%R] 2) rows /\
    top_idxs insertion_argsort [0%R; 0%R; 0%R] 2
    = rev (skipn 1 (insertion_argsort [0%R; 0%R; 0%R])).
Proof.
  apply (@C3_no_terms_query_rows insertion_argsort insertion_argsort_admissible
           sample_movies "?!" 2).
  - apply Exists_cons_hd. vm_compute. discriminate.
  - reflexivity.
  - reflexivity.
Defined.

(** ** The number of results *)

(** C4, refuted as stated: a corpus and a query none of whose words has two
    characters leave the vocabulary empty, and the call raises instead of
    returning one row. *)
Lemma C4_result_count_fails :
  find_recommendations insertion_argsort [{| Title := "A"; Plot := "a b c" |}] "I" 1
    = Raise EmptyVocabulary /\
  ~ (exists rows,
       find_recommendations insertion_argsort
         [{| Title := "A"; Plot := "a b c" |}] "I" 1 = Ok rows /\
       length rows = Nat.min 1 1).
Proof.
  assert (H : find_recommendations insertion_argsort
                [{| Title := "A"; Plot := "a b c" |}] "I" 1
              = Raise EmptyVocabulary) by reflexivity.
  split; [exact H |].
  intros [rows [Hr _]]. rewrite H in Hr. discriminate.
Qed.

Lemma C4_result_count_witness :
  exists rows,
    find_recommendations insertion_argsort sample_movies "dogs playing" 10 = Ok rows /\
    length rows = 3 /\
    ((3 <= 10)%Z -> Permutation rows sample_movies).
Proof.
  apply (@C4_result_count insertion_argsort insertion_argsort_admissible
           sample_movies "dogs playing" 10).
  - discriminate.
  - vm_compute. discriminate.
  - reflexivity.
Defined.

(** ** The order of the results *)

Lemma C7_scores_non_increasing_witness :
  exists rows,
    find_recommendations insertion_argsort sample_movies "dogs playing" 2 = Ok rows /\
    Forall2 (fun i m => nth_error sample_movies i = Some m)
      (top_idxs insertion_argsort (similarities sample_movies "dogs playing") 2) rows /\
    StronglySorted Rge
      (map (score (similarities sample_movies "dogs playing"))
           (top_idxs insertion_argsort (similarities sample_movies "dogs playing") 2)).
Proof.
  pose proof (@C7_scores_non_increasing insertion_argsort
                insertion_argsort_admissible sample_movies "dogs playing" 2
                eq_refl) as H.
  rewrite sample_similarities in H. exact H.
Defined.

(** ** The query row *)

Lemma C10_query_row_excluded_witness :
  nth_error (form_corpus sample_movies "dogs playing") 3 = Some "dogs playing"%string /\
  length (form_corpus sample_movies "dogs playing") = 4 /\
  length (similarities sample_movies "dogs playing") = 3 /\
  Forall (fun i => i < 3)
         (top_idxs insertion_argsort (similarities sample_movies "dogs playing") 2) /\
  ~ In 3 (top_idxs insertion_argsort (similarities sample_movies "dogs playing") 2) /\
  exists rows,
    find_recommendations insertion_argsort sample_movies "dogs playing" 2 = Ok rows /\
    Forall (fun m => In m sample_movies) rows.
Proof.
  pose proof (@C10_query_row_excluded insertion_argsort
                insertion_argsort_admissible sample_movies "dogs playing" 2) as H.
  rewrite sample_similarities in H.
  destruct H as [H1 [H2 [_ [H3 [H4 [H5 [rows [H6 [_ H7]]]]]]]]].
  repeat split; try assumption.
  exists rows. split; assumption.
Defined.

(** ** Further properties *)

Lemma top_idxs_best_witness :
  (score [1; 3; 2; 3]%R 0 <= score [1; 3; 2; 3]%R 2)%R.
Proof.
  apply (@top_idxs_best insertion_argsort insertion_argsort_admissible
           [1; 3; 2; 3]%R 3 2 0).
  - rewrite top_idxs_example. simpl. auto.
  - simpl. lia.
  - rewrite top_idxs_example. simpl.
    intros [H | [H | [H | H]]]; try discriminate; exact H.
Defined.

Lemma find_recommendations_prefix_witness :
  find_recommendations insertion_argsort sample_movies empty_query 1
  = Ok (firstn 1 [movie_C; movie_B]).
Proof.
  apply (@find_recommendations_prefix insertion_argsort insertion_argsort_admissible
           sample_movies empty_query 1 2).
  - lia.
  - lia.
  - apply (@insertion_no_terms sample_movies empty_query 2 eq_refl
             (sample_vocabulary empty_query)).
Defined.

Lemma find_recommendations_outcome_witness :
  find_recommendations insertion_argsort sample_movies "dogs playing" 2
  <> Raise IndexError /\
  exists rows,
    find_recommendations insertion_argsort sample_movies "dogs playing" 2 = Ok rows.
Proof.
  destruct (@find_recommendations_outcome insertion_argsort
              insertion_argsort_admissible sample_movies "dogs playing" 2)
    as [_ [_ [H3 H4]]].
  split; [exact H3 |].
  apply H4. split; [discriminate |].
  intros H. apply Forall_inv in H. vm_compute in H. discriminate.
Defined.

Lemma find_recommendations_count_witness :
  exists rows idxs,
    find_recommendations insertion_argsort sample_movies "dogs playing" (-2) = Ok rows /\
    NoDup idxs /\
    Forall2 (fun i m => nth_error sample_movies i = Some m) idxs rows /\
    length rows = 1.
Proof.
  apply (@find_recommendations_count insertion_argsort insertion_argsort_admissible
           sample_movies "dogs playing" (-2)).
  - discriminate.
  - vm_compute. discriminate.
Defined.

Lemma find_recommendations_tokens_only_witness :
  find_recommendations insertion_argsort sample_movies "Dogs, PLAYING... a !" 2
  = find_recommendations insertion_argsort sample_movies "dogs playing" 2.
Proof.
  apply (@find_recommendations_tokens_only insertion_argsort sample_movies
           "Dogs, PLAYING... a !" "dogs playing" 2).
  reflexivity.
Defined.

Lemma unrelated_documents_come_last_witness :
  exists cos_sims,
    calculate_cos_similarities (form_corpus sample_movies "dogs playing")
      = Ok cos_sims /\
    (In 2 (top_idxs insertion_argsort cos_sims 3) ->
     In 1 (top_idxs insertion_argsort cos_sims 3)) /\
    (forall p q,
       nth_error (top_idxs insertion_argsort cos_sims 3) p = Some 2 ->
       nth_error (top_idxs insertion_argsort cos_sims 3) q = Some 1 ->
       q < p).
Proof.
  apply (@unrelated_documents_come_last insertion_argsort
           insertion_argsort_admissible sample_movies "dogs playing" 3 1 2
           movie_B movie_C).
  - reflexivity.
  - reflexivity.
  - exists "dogs"%string. split; vm_compute; auto.
  - intros t Hd Hq. vm_compute in Hd, Hq.
    repeat (destruct Hd as [<- | Hd];
            [destruct Hq as [Hq | [Hq | []]]; discriminate Hq |]).
    exact Hd.
Defined.

Lemma related_documents_fill_top_witness :
  exists cos_sims,
    calculate_cos_similarities (form_corpus sample_movies "dogs playing")
      = Ok cos_sims /\
    ~ In 2 (top_idxs insertion_argsort cos_sims 2).
Proof.
  apply (@related_documents_fill_top insertion_argsort insertion_argsort_admissible
           sample_movies "dogs playing" 2 [0; 1] 2 movie_C).
  - reflexivity.
  - repeat constructor; simpl; intuition discriminate.
  - simpl. lia.
  - repeat constructor.
    + exists movie_A, "dogs"%string. repeat split; vm_compute; auto.
    + exists movie_B, "dogs"%string. repeat split; vm_compute; auto.
  - reflexivity.
  - intros t Hd Hq. vm_compute in Hd, Hq.
    repeat (destruct Hd as [<- | Hd];
            [destruct Hq as [Hq | [Hq | []]]; discriminate Hq |]).
    exact Hd.
Defined.
